(** * A shallow embedding of the resolver pool of [resolve] (resolvers.go)

    The pool ([Resolvers]) admits DNS queries into an ingress queue, an
    admission loop hands each one to an endpoint ([resolver]), whose send
    step writes it on the wire and records it in an exchange table, whose
    receive step matches responses, and whose expiry sweep fails stale
    exchanges.  Time is a [Z] count of nanoseconds, as Go's [time.Duration].
    Channel sends are recorded as [delivery] events; the result of a
    query is what its channel receives. *)

From Stdlib Require Import ZArith NArith String Ascii List Bool Lia.
Import ListNotations.

Open Scope Z_scope.

(** ** Durations of package [time] *)

Definition Nanosecond : Z := 1.
Definition Millisecond : Z := 1000000.
Definition Second : Z := 1000000000.
Definition Minute : Z := 60 * Second.

(** Go's [int], 64 bits wide on the 64-bit platforms: its arithmetic wraps
    around modulo 2^64. *)
Definition int_wrap (z : Z) : Z := (z + 2 ^ 63) mod 2 ^ 64 - 2 ^ 63.

(** ** Messages of package [dns] (the fields the pool reads or writes) *)

Record dnsQuestion := mkQuestion { Name : string; Qtype : N }.

Record dnsMsg := mkMsg {
  Id : N;
  Question : list dnsQuestion;
  Rcode : Z;
  Truncated : bool;
  Answer : list string
}.

Definition set_Rcode (m : dnsMsg) (rc : Z) : dnsMsg :=
  mkMsg (Id m) (Question m) rc (Truncated m) (Answer m).

(** Modelled from the spec: the package constant [RcodeNoResponse] (not in
    src/), "a distinguished no response result code"; it lies outside the
    range of the DNS result codes. *)
Definition RcodeNoResponse : Z := 50.

(** Modelled from the spec: [RemoveLastDot] (not in src/), "query name
    (without trailing root label)": drops one final ".". *)
Definition RemoveLastDot (s : string) : string :=
  match String.length s with
  | O => s
  | S n => if String.eqb (String.substring n 1 s) "." then String.substring 0 n s else s
  end.

(** ** Requests

    [rq_serial] is a ghost field: the number of the [Query] call that
    created the request, so that deliveries can be counted per query. *)

Record request := mkRequest {
  Ctx : nat;
  ID : N;
  RName : string;
  RQtype : N;
  Msg : dnsMsg;
  Result : nat;
  rq_serial : nat
}.

(** A send on a result channel: which query it answers, on which channel,
    what value ([None] is Go's [nil]). *)
Record delivery := mkDelivery {
  dv_serial : nat;
  dv_chan : nat;
  dv_msg : option dnsMsg
}.

(** Modelled from the spec: [request.errNoResponse] (not in src/), "the
    original query message with a distinguished no response result code"
    sent on the request's result channel. *)
Definition errNoResponse (req : request) : delivery :=
  mkDelivery (rq_serial req) (Result req) (Some (set_Rcode (Msg req) RcodeNoResponse)).

(** A real answer [m] sent on the request's result channel. *)
Definition deliver (req : request) (m : dnsMsg) : delivery :=
  mkDelivery (rq_serial req) (Result req) (Some m).

(** ** The exchange table [xchgMgr]

    Modelled from the spec (xchgMgr is not in src/): "a mapping from a
    composite key (transaction id, query name) to an in-flight Request plus
    an expiry timestamp"; "at most one live entry per key"; "if an id
    collision occurs on insert, insertion fails"; the sweep removes
    "entries past their deadline".  The key uses the name without its
    trailing dot, as the request's [RName] is stored.  "Value: the Request
    reference and a deadline timestamp": an entry keeps its deadline, set
    to now + the configured timeout when the send is recorded
    ([updateTimestamp]); [setTimeout] changes the timeout used for later
    entries. *)

Definition xkey : Type := (N * string)%type.

Definition mk_xkey (id : N) (name : string) : xkey := (id, RemoveLastDot name).

Definition xkey_eqb (a b : xkey) : bool :=
  N.eqb (fst a) (fst b) && String.eqb (snd a) (snd b).

Record xentry := mkXentry { xe_key : xkey; xe_req : request; xe_deadline : Z }.

Record xchgMgr := mkXchgMgr { x_timeout : Z; x_entries : list xentry }.

Definition newXchgMgr (timeout : Z) : xchgMgr := mkXchgMgr timeout [].

Definition x_has (x : xchgMgr) (k : xkey) : bool :=
  existsb (fun e => xkey_eqb (xe_key e) k) (x_entries x).

(** [add]: fails ([None]) on a duplicate key; the deadline is set by
    [updateTimestamp]. *)
Definition x_add (x : xchgMgr) (req : request) : option xchgMgr :=
  let k := mk_xkey (ID req) (RName req) in
  if x_has x k then None
  else Some (mkXchgMgr (x_timeout x) (x_entries x ++ [mkXentry k req 0])).

Definition x_updateTimestamp (x : xchgMgr) (id : N) (name : string) (now : Z) : xchgMgr :=
  let k := mk_xkey id name in
  mkXchgMgr (x_timeout x)
    (map (fun e => if xkey_eqb (xe_key e) k then mkXentry (xe_key e) (xe_req e) (now + x_timeout x)
                   else e)
         (x_entries x)).

Fixpoint x_remove_aux (k : xkey) (l : list xentry) : option request * list xentry :=
  match l with
  | [] => (None, [])
  | e :: l' =>
      if xkey_eqb (xe_key e) k then (Some (xe_req e), l')
      else let '(r, l'') := x_remove_aux k l' in (r, e :: l'')
  end.

Definition x_remove (x : xchgMgr) (id : N) (name : string) : option request * xchgMgr :=
  let '(r, l) := x_remove_aux (mk_xkey id name) (x_entries x) in
  (r, mkXchgMgr (x_timeout x) l).

Definition x_removeAll (x : xchgMgr) : list request * xchgMgr :=
  (map xe_req (x_entries x), mkXchgMgr (x_timeout x) []).

Definition x_expired (x : xchgMgr) (now : Z) (e : xentry) : bool :=
  Z.ltb (xe_deadline e) now.

Definition x_removeExpired (x : xchgMgr) (now : Z) : list request * xchgMgr :=
  (map xe_req (filter (x_expired x now) (x_entries x)),
   mkXchgMgr (x_timeout x) (filter (fun e => negb (x_expired x now e)) (x_entries x))).


(** ** Endpoints: [resolver]

    [conn_writes] records every [conn.WriteMsg] attempt; [stats] records
    every message passed to [collectStats] (its counters are not in src/). *)

Record resolver := mkResolver {
  done : bool;
  xchgQueue : list request;
  xchgs : xchgMgr;
  address : string;
  qps : Z;
  inc : Z;
  next : Z;
  conn_writes : list dnsMsg;
  stats : list dnsMsg
}.

Definition set_xchgQueue (r : resolver) (q : list request) : resolver :=
  mkResolver (done r) q (xchgs r) (address r) (qps r) (inc r) (next r) (conn_writes r) (stats r).

Definition set_xchgs (r : resolver) (x : xchgMgr) : resolver :=
  mkResolver (done r) (xchgQueue r) x (address r) (qps r) (inc r) (next r) (conn_writes r) (stats r).

Definition set_next (r : resolver) (t : Z) : resolver :=
  mkResolver (done r) (xchgQueue r) (xchgs r) (address r) (qps r) (inc r) t (conn_writes r) (stats r).

Definition write_conn (r : resolver) (m : dnsMsg) : resolver :=
  mkResolver (done r) (xchgQueue r) (xchgs r) (address r) (qps r) (inc r) (next r)
    (conn_writes r ++ [m]) (stats r).

Definition collectStats (r : resolver) (m : dnsMsg) : resolver :=
  mkResolver (done r) (xchgQueue r) (xchgs r) (address r) (qps r) (inc r) (next r)
    (conn_writes r) (stats r ++ [m]).

(** [resolver.stop]: close [done], fail every queued request, then every
    request of the exchange table. *)
Definition resolver_stop (r : resolver) : resolver * list delivery :=
  if done r then (r, [])
  else
    let drained := map errNoResponse (xchgQueue r) in
    let '(reqs, x') := x_removeAll (xchgs r) in
    (mkResolver true [] x' (address r) (qps r) (inc r) (next r) (conn_writes r) (stats r),
     drained ++ map errNoResponse reqs).

(** [resolver.query] *)
Definition resolver_query (r : resolver) (req : request) : resolver * list delivery :=
  if done r then (r, [errNoResponse req])
  else (set_xchgQueue r (xchgQueue r ++ [req]), []).

(** [resolver.writeNextMsg] at time [now]; [ctx_done] tells which contexts
    are canceled, [write_ok] whether [conn.WriteMsg] returns a nil error.
    The [&&] of the source is short-circuit: [add] runs only after a
    successful write. *)
Definition writeNextMsg (r : resolver) (ctx_done : nat -> bool) (write_ok : bool) (now : Z)
  : resolver * list delivery :=
  if done r then (r, [])
  else
    match xchgQueue r with
    | [] => (r, [])
    | req :: rest =>
        let r1 := set_xchgQueue r rest in
        if ctx_done (Ctx req) then (r1, [errNoResponse req])
        else
          let r2 := write_conn r1 (Msg req) in
          match (if write_ok then x_add (xchgs r2) req else None) with
          | Some x =>
              let r3 := set_xchgs r2 (x_updateTimestamp x (ID req) (RName req) now) in
              (set_next r3 (now + inc r3), [])
          | None => (r2, [errNoResponse req])
          end
    end.

(** One iteration of [resolver.responses]; [read] is what [conn.ReadMsg]
    yields ([None] for an error or a nil message).  The third component is
    the request handed to a new [tcpExchange] task. *)
Definition responses_step (r : resolver) (read : option dnsMsg)
  : resolver * list delivery * option request :=
  if done r then (r, [], None)
  else
    match read with
    | Some m =>
        match Question m with
        | q :: _ =>
            match x_remove (xchgs r) (Id m) (Name q) with
            | (Some req, x') =>
                let r1 := set_xchgs r x' in
                if Truncated m then (r1, [], Some req)
                else (collectStats r1 m, [deliver req m], None)
            | (None, _) => (r, [], None)
            end
        | [] => (r, [], None)
        end
    | None => (r, [], None)
    end.

(** [resolver.tcpExchange]; [outcome] is the message [client.Exchange]
    returns, [None] when it returns an error. *)
Definition tcpExchange (r : resolver) (req : request) (outcome : option dnsMsg)
  : resolver * list delivery :=
  match outcome with
  | Some m => (collectStats r m, [deliver req m])
  | None => (r, [errNoResponse req])
  end.

(** The TCP client of [tcpExchange] has [Timeout: time.Minute]. *)
Definition tcp_timeout : Z := Minute.

(** [time.NewTicker(100 * time.Millisecond)] of [resolver.timeouts]. *)
Definition sweep_interval : Z := 100 * Millisecond.

(** The loop body of [resolver.timeouts] over the expired requests:
    [req.errNoResponse()] sets the no-response code on [req.Msg] in place
    and sends it, then [r.collectStats(req.Msg)] counts that message. *)
Fixpoint fail_expired (r : resolver) (reqs : list request) : resolver * list delivery :=
  match reqs with
  | [] => (r, [])
  | req :: rest =>
      let '(r', ds) := fail_expired (collectStats r (set_Rcode (Msg req) RcodeNoResponse)) rest in
      (r', errNoResponse req :: ds)
  end.

(** One tick of [resolver.timeouts] at time [now]. *)
Definition timeouts_step (r : resolver) (now : Z) : resolver * list delivery :=
  if done r then (r, [])
  else
    let '(reqs, x') := x_removeExpired (xchgs r) now in
    fail_expired (set_xchgs r x') reqs.

(** ** The pool: [Resolvers]

    The selector ([randomSelector], not in src/) is modelled from the spec
    (section 4.3): [pool] is its list of endpoints, [AddResolver] appends,
    [AllResolvers] is the list, [Close] "releases the Selector's resources"
    ([pool_closed]), and [GetResolver] picks one endpoint of the list, none
    when the list is empty or the selector closed.  The detection resolver
    ([getDetectionResolver], not in src/) is taken to be absent. *)

Record Resolvers := mkResolvers {
  rdone : bool;
  pool : list resolver;
  pool_closed : bool;
  rmap : list string;
  queue : list request;
  rqps : Z;
  maxSet : bool;
  timeout : Z
}.

Definition set_queue (p : Resolvers) (q : list request) : Resolvers :=
  mkResolvers (rdone p) (pool p) (pool_closed p) (rmap p) q (rqps p) (maxSet p) (timeout p).

Definition set_pool (p : Resolvers) (l : list resolver) : Resolvers :=
  mkResolvers (rdone p) l (pool_closed p) (rmap p) (queue p) (rqps p) (maxSet p) (timeout p).

(** The loop of [Stop] over [all], from the aggregate [qps] (a Go [int]). *)
Fixpoint stop_all (maxset : bool) (q : Z) (all : list resolver)
  : Z * list resolver * list delivery :=
  match all with
  | [] => (q, [], [])
  | res :: rest =>
      let q1 := if maxset then q else int_wrap (q - qps res) in
      let '(res', ds1) := resolver_stop res in
      let '(q2, rest', ds2) := stop_all maxset q1 rest in
      (q2, res' :: rest', ds1 ++ ds2)
  end.

(** [Resolvers.Stop] *)
Definition Stop (p : Resolvers) : Resolvers * list delivery :=
  if rdone p then (p, [])
  else
    let '(q, all', ds) := stop_all (maxSet p) (rqps p) (pool p) in
    (mkResolvers true all' true (rmap p) (queue p) q (maxSet p) (timeout p), ds).

(** Results of calls that may panic. *)
Inductive outcome (A : Type) : Type :=
| Ran (a : A) (ds : list delivery)
| Panicked.
Arguments Ran {A} a ds.
Arguments Panicked {A}.

(** [Resolvers.Query] as the [serial]-th query: [ctx_done] is whether
    [ctx.Done()] is ready, [msg = None] is a nil message.  The [select]
    takes [default] only when neither [ctx.Done()] nor [r.done] is ready. *)
Definition Query (p : Resolvers) (ctx_done : bool) (ctx : nat) (msg : option dnsMsg)
    (ch : nat) (serial : nat) : outcome Resolvers :=
  match msg with
  | None => Ran p [mkDelivery serial ch None]
  | Some m =>
      if ctx_done || rdone p then
        Ran p [mkDelivery serial ch (Some (set_Rcode m RcodeNoResponse))]
      else
        match Question m with
        | [] => Panicked
        | q :: _ =>
            let req := mkRequest ctx (Id m) (RemoveLastDot (Name q)) (Qtype q) m ch serial in
            Ran (set_queue p (queue p ++ [req])) []
        end
  end.

Definition err_ctx_expired : string := "the context expired".
Definition err_query_failed : string := "query failed".

(** The two [select]s of [Resolvers.QueryBlocking]: [sel_done] when
    [ctx.Done()] is the case taken, [sel_recv resp] when the channel read
    is.  Go picks either ready case, so both rules may apply. *)
Inductive select_case : Type :=
| sel_done
| sel_recv (resp : option dnsMsg).

Inductive select_ready (ctx_done : bool) (chan : option (option dnsMsg)) : select_case -> Prop :=
| ready_done : ctx_done = true -> select_ready ctx_done chan sel_done
| ready_recv v : chan = Some v -> select_ready ctx_done chan (sel_recv v).

(** What the result channel holds at the second [select]: the value
    [Query] sent itself, if it sent one, or else [later], what the loops of
    the pool have sent by then. *)
Definition chan_value (ds : list delivery) (later : option (option dnsMsg))
  : option (option dnsMsg) :=
  match ds with d :: _ => Some (dv_msg d) | [] => later end.

(** The caller's message after the no-response code was set on it in
    place ([msg.Rcode = RcodeNoResponse], or [errNoResponse] on
    [req.Msg], the same message). *)
Definition no_response_msg (msg : option dnsMsg) : option dnsMsg :=
  option_map (fun m => set_Rcode m RcodeNoResponse) msg.

(** The caller's message when [QueryBlocking] returns it: as [Query] left
    it when [Query] answered at once (it set the no-response code before
    sending it), the message as passed otherwise. *)
Definition msg_at_return (ds : list delivery) (msg : option dnsMsg) : option dnsMsg :=
  match ds with d :: _ => dv_msg d | [] => msg end.

(** [QueryBlocking p msg] returns [(resp, err)] after the pool became
    [p'].  [ctx0], [ctxq] and [ctx1]: whether the context is done at the
    first [select], at the [select] of [Query], and at the second
    [select]; a canceled context stays canceled, so [ctxq] implies [ctx1].
    [later]: what the loops of the pool have sent on the channel by the
    second [select] when [Query] queued the request (the channel
    [QueryChan] makes is fresh, with capacity 1).  The message returned
    with "the context expired" is the caller's [msg]: a queued request may
    be failed by the loops of the pool at any time, which sets the
    no-response code on that same message. *)
Inductive QueryBlocking (p : Resolvers) (ctx : nat) (msg : option dnsMsg) (serial : nat)
    (ctx0 ctx1 : bool) (later : option (option dnsMsg))
  : Resolvers -> option dnsMsg -> option string -> Prop :=
| qb_expired_first :
    ctx0 = true ->
    QueryBlocking p ctx msg serial ctx0 ctx1 later p msg (Some err_ctx_expired)
| qb_expired_wait ctxq p' ds resp :
    ctx0 = false -> (ctxq = true -> ctx1 = true) ->
    Query p ctxq ctx msg 0 serial = Ran p' ds ->
    select_ready ctx1 (chan_value ds later) sel_done ->
    resp = msg_at_return ds msg \/ (ds = [] /\ resp = no_response_msg msg) ->
    QueryBlocking p ctx msg serial ctx0 ctx1 later p' resp (Some err_ctx_expired)
| qb_received ctxq p' ds resp :
    ctx0 = false -> (ctxq = true -> ctx1 = true) ->
    Query p ctxq ctx msg 0 serial = Ran p' ds ->
    select_ready ctx1 (chan_value ds later) (sel_recv resp) ->
    QueryBlocking p ctx msg serial ctx0 ctx1 later p' resp
      (match resp with None => Some err_query_failed | Some _ => None end).

(** Connection set-up, outside the core: whether [net.SplitHostPort]
    accepts an address and whether [dns.Client.Dial] succeeds. *)
Record net_env := mkNetEnv { splitHostPort_ok : string -> bool; dial_ok : string -> bool }.

(** [net.JoinHostPort] *)
Definition JoinHostPort (host port : string) : string :=
  if existsb (fun c => Ascii.eqb c ":"%char) (list_ascii_of_string host)
  then String.append "[" (String.append host (String.append "]:" port))
  else String.append host (String.append ":" port).

(** [Resolvers.initializeResolver] at time [now]. *)
Definition initializeResolver (env : net_env) (p : Resolvers) (addr : string) (q : Z) (now : Z)
  : option resolver :=
  let addr' := if splitHostPort_ok env addr then addr else JoinHostPort addr "53" in
  if dial_ok env addr'
  then Some (mkResolver false [] (newXchgMgr (timeout p)) addr' q (Z.quot Second q) now [] [])
  else None.

Fixpoint add_each (env : net_env) (p : Resolvers) (q : Z) (addrs : list string) (now : Z)
  : Resolvers :=
  match addrs with
  | [] => p
  | addr :: rest =>
      if existsb (String.eqb addr) (rmap p) then add_each env p q rest now
      else
        match initializeResolver env p addr q now with
        | Some res =>
            add_each env
              (mkResolvers (rdone p) (pool p ++ [res]) (pool_closed p) (rmap p ++ [addr])
                 (queue p) (if maxSet p then rqps p else int_wrap (rqps p + q)) (maxSet p)
                 (timeout p))
              q rest now
        | None => add_each env p q rest now
        end
  end.

Definition err_zero_qps : string :=
  "failed to provide a maximum number of queries per second greater than zero".

(** [Resolvers.AddResolvers]: the new pool and the returned error. *)
Definition AddResolvers (env : net_env) (p : Resolvers) (q : Z) (addrs : list string) (now : Z)
  : Resolvers * option string :=
  if Z.eqb q 0 then (p, Some err_zero_qps)
  else (add_each env p q addrs now, None).

(** [NewResolvers]; [dt] is the package constant [DefaultTimeout] (not in
    src/).  The loops it starts are the steps of [step] below. *)
Definition NewResolvers (dt : Z) : Resolvers := mkResolvers false [] false [] [] 0 false dt.

(** [Resolvers.Len]: [r.pool.Len()], the number of endpoints added. *)
Definition Len (p : Resolvers) : nat := length (pool p).

(** [Resolvers.QPS] *)
Definition QPS (p : Resolvers) : Z := rqps p.

(** [Resolvers.SetMaxQPS]; the limiter it creates or clears is not part of
    the model (its [Take] only delays the admission loop). *)
Definition SetMaxQPS (p : Resolvers) (q : Z) : Resolvers :=
  mkResolvers (rdone p) (pool p) (pool_closed p) (rmap p) (queue p) q (Z.ltb 0 q) (timeout p).



(** The loop of [Resolvers.checkAllQueues] over the endpoints from index
    [i], at the time [cur] read once before the loop.  For the [i]-th
    endpoint, [sig i] is whether [res.xchgQueue.Signal()] is ready (a
    channel of package [queue], outside the repository), [write_ok i]
    whether its [conn.WriteMsg] succeeds and [wnow i] the [time.Now()]
    read in its [writeNextMsg]. *)
Fixpoint check_all (ctx_done : nat -> bool) (sig write_ok : nat -> bool) (wnow : nat -> Z)
    (cur : Z) (i : nat) (all : list resolver) : bool * list resolver * list delivery :=
  match all with
  | [] => (false, [], [])
  | res :: rest =>
      let '(b, res', ds1) :=
        if done res then (false, res, [])
        else if Z.ltb cur (next res) then (false, res, [])
        else if sig i then
          let '(res', ds) := writeNextMsg res ctx_done (write_ok i) (wnow i) in (true, res', ds)
        else (false, res, []) in
      let '(sent, rest', ds2) := check_all ctx_done sig write_ok wnow cur (S i) rest in
      (b || sent, res' :: rest', ds1 ++ ds2)
  end.

(** [Resolvers.checkAllQueues]: whether a message was sent, the pool after
    the round and the results sent during it. *)
Definition checkAllQueues (p : Resolvers) (ctx_done : nat -> bool) (sig write_ok : nat -> bool)
    (wnow : nat -> Z) (cur : Z) : bool * Resolvers * list delivery :=
  let '(sent, all', ds) := check_all ctx_done sig write_ok wnow cur 0 (pool p) in
  (sent, set_pool p all', ds).

(** ** The running system

    The goroutines of a pool: the admission loop [enforceMaxQPS], the
    dispatch loop [sendQueries], and per endpoint [responses], [timeouts]
    and the [tcpExchange] tasks it spawns, interleaved with the calls of
    callers ([Query], [Stop], [AddResolvers]), context cancellation and the
    passing of time.  Each step is one iteration of a loop or one call.
    The rate limiter's [Take] only delays the admission loop and is left
    out. [log] keeps every channel send with the time it happened. *)

Record World := mkWorld {
  P : Resolvers;
  canceled : list nat;
  now : Z;
  log : list (Z * delivery);
  serial : nat;
  adm_alive : bool;
  tcp_tasks : list (nat * request * Z)
}.

Definition ctx_is_done (w : World) (c : nat) : bool := existsb (Nat.eqb c) (canceled w).

Definition emit (w : World) (ds : list delivery) : list (Z * delivery) :=
  log w ++ map (fun d => (now w, d)) ds.

Fixpoint set_nth {A : Type} (l : list A) (i : nat) (a : A) : list A :=
  match l, i with
  | [], _ => []
  | _ :: l', O => a :: l'
  | x :: l', S i' => x :: set_nth l' i' a
  end.

Definition remove_nth {A : Type} (l : list A) (i : nat) : list A :=
  firstn i l ++ skipn (S i) l.

Definition with_pool_at (w : World) (i : nat) (res : resolver) (ds : list delivery)
    (spawned : list (nat * request * Z)) : World :=
  mkWorld (set_pool (P w) (set_nth (pool (P w)) i res)) (canceled w) (now w) (emit w ds)
    (serial w) (adm_alive w) (tcp_tasks w ++ spawned).

Inductive step (w : World) : World -> Prop :=
| st_query c msg ch p' ds :
    Query (P w) (ctx_is_done w c) c msg ch (serial w) = Ran p' ds ->
    step w (mkWorld p' (canceled w) (now w) (emit w ds) (S (serial w)) (adm_alive w) (tcp_tasks w))
| st_admit_exit :
    adm_alive w = true -> rdone (P w) = true ->
    step w (mkWorld (P w) (canceled w) (now w) (log w) (serial w) false (tcp_tasks w))
| st_admit_none req rest :
    adm_alive w = true -> queue (P w) = req :: rest ->
    (pool_closed (P w) = true \/ pool (P w) = []) ->
    step w (mkWorld (set_queue (P w) rest) (canceled w) (now w) (emit w [errNoResponse req])
              (serial w) (adm_alive w) (tcp_tasks w))
| st_admit_pick req rest i res res' ds :
    adm_alive w = true -> queue (P w) = req :: rest -> pool_closed (P w) = false ->
    nth_error (pool (P w)) i = Some res ->
    resolver_query res req = (res', ds) ->
    step w (mkWorld (set_queue (set_pool (P w) (set_nth (pool (P w)) i res')) rest)
              (canceled w) (now w) (emit w ds) (serial w) (adm_alive w) (tcp_tasks w))
| st_send i res write_ok res' ds :
    rdone (P w) = false ->
    nth_error (pool (P w)) i = Some res ->
    done res = false -> next res <= now w -> xchgQueue res <> [] ->
    writeNextMsg res (ctx_is_done w) write_ok (now w) = (res', ds) ->
    step w (with_pool_at w i res' ds [])
| st_recv i res read res' ds spawn :
    nth_error (pool (P w)) i = Some res ->
    responses_step res read = (res', ds, spawn) ->
    step w (with_pool_at w i res' ds
              (match spawn with Some req => [(i, req, now w)] | None => [] end))
| st_tcp k i req t0 res out res' ds :
    nth_error (tcp_tasks w) k = Some (i, req, t0) ->
    now w <= t0 + tcp_timeout ->
    nth_error (pool (P w)) i = Some res ->
    tcpExchange res req out = (res', ds) ->
    step w (mkWorld (set_pool (P w) (set_nth (pool (P w)) i res')) (canceled w) (now w)
              (emit w ds) (serial w) (adm_alive w) (remove_nth (tcp_tasks w) k))
| st_sweep i res res' ds :
    nth_error (pool (P w)) i = Some res ->
    timeouts_step res (now w) = (res', ds) ->
    step w (with_pool_at w i res' ds [])
| st_stop p' ds :
    Stop (P w) = (p', ds) ->
    step w (mkWorld p' (canceled w) (now w) (emit w ds) (serial w) (adm_alive w) (tcp_tasks w))
| st_add env q addrs p' err :
    AddResolvers env (P w) q addrs (now w) = (p', err) ->
    step w (mkWorld p' (canceled w) (now w) (log w) (serial w) (adm_alive w) (tcp_tasks w))
| st_cancel c :
    step w (mkWorld (P w) (canceled w ++ [c]) (now w) (log w) (serial w) (adm_alive w) (tcp_tasks w))
| st_time d :
    0 <= d ->
    step w (mkWorld (P w) (canceled w) (now w + d) (log w) (serial w) (adm_alive w) (tcp_tasks w)).

Inductive steps : World -> World -> Prop :=
| steps_refl w : steps w w
| steps_cons w1 w2 w3 : step w1 w2 -> steps w2 w3 -> steps w1 w3.

(** How many results the [n]-th query has received. *)
Definition deliveries_of (n : nat) (w : World) : nat :=
  length (filter (fun td => Nat.eqb (dv_serial (snd td)) n) (log w)).


(** ** Concrete values used by the examples below *)

Definition q_example : dnsQuestion := mkQuestion "www.example.com." 1%N.

Definition msg_example : dnsMsg := mkMsg 4660%N [q_example] 0 false [].

Definition msg_truncated : dnsMsg := mkMsg 4660%N [q_example] 0 true [].

Definition msg_tcp_answer : dnsMsg := mkMsg 4660%N [q_example] 0 false ["93.184.216.34"%string].

Definition msg_no_question : dnsMsg := mkMsg 7%N [] 0 false [].

Definition resolver_fresh (t : Z) : resolver :=
  mkResolver false [] (newXchgMgr (500 * Millisecond)) "8.8.8.8:53" 10 (Second / 10) t [] [].

Definition pool_empty : Resolvers :=
  mkResolvers false [] false [] [] 0 false (500 * Millisecond).

Definition pool_one : Resolvers :=
  mkResolvers false [resolver_fresh 0] false ["8.8.8.8"%string] [] 10 false (500 * Millisecond).

Definition pool_stopped : Resolvers := fst (Stop pool_one).

Definition world_one : World := mkWorld pool_one [] 0 [] O true [].

Definition net_ok : net_env := mkNetEnv (fun _ => false) (fun _ => true).

Example RemoveLastDot_example : RemoveLastDot "www.example.com." = "www.example.com"%string.
Proof. reflexivity. Qed.

Example JoinHostPort_example : JoinHostPort "8.8.8.8" "53" = "8.8.8.8:53"%string.
Proof. reflexivity. Qed.

(** ** Query *)

(** C3: on a shut-down pool or with a canceled context, [Query] sends the
    message back at once with the no-response code and leaves the pool (its
    ingress queue, its endpoints' queues, tables and connections) as it was. *)
Theorem Query_shutdown_or_canceled (p : Resolvers) (ctx_done : bool) (ctx : nat) (m : dnsMsg)
    (ch serial : nat) :
  ctx_done = true \/ rdone p = true ->
  Query p ctx_done ctx (Some m) ch serial =
  Ran p [mkDelivery serial ch (Some (set_Rcode m RcodeNoResponse))].
Proof.
  intros [H | H]; unfold Query; rewrite H; [reflexivity | now rewrite orb_true_r].
Qed.

Lemma Query_shutdown_or_canceled_witness :
  Query pool_stopped false 0 (Some msg_example) 1 0 =
  Ran pool_stopped [mkDelivery 0 1 (Some (set_Rcode msg_example RcodeNoResponse))].
Proof. apply Query_shutdown_or_canceled. right. vm_compute. reflexivity. Defined.

(** C9: on a running pool with a live context, a non-nil message without a
    question makes [Query] index [msg.Question[0]] out of range: it panics. *)
Theorem Query_no_question_panics (p : Resolvers) (ctx : nat) (m : dnsMsg) (ch serial : nat) :
  rdone p = false -> Question m = [] ->
  Query p false ctx (Some m) ch serial = Panicked.
Proof.
  intros Hd Hq. unfold Query. rewrite Hd, Hq. reflexivity.
Qed.

Lemma Query_no_question_panics_witness :
  Query pool_one false 0 (Some msg_no_question) 1 0 = Panicked.
Proof. apply Query_no_question_panics; reflexivity. Defined.

(** C10: [Query] with a nil message sends nil on the channel and changes
    nothing; [QueryBlocking] with a nil message and a live context returns
    nil with the "query failed" error, and nothing else. *)
Theorem Query_nil_message (p : Resolvers) (ctx_done : bool) (ctx ch serial : nat)
    (later : option (option dnsMsg)) :
  Query p ctx_done ctx None ch serial = Ran p [mkDelivery serial ch None] /\
  QueryBlocking p ctx None serial false false later p None (Some err_query_failed) /\
  (forall p' resp err,
     QueryBlocking p ctx None serial false false later p' resp err ->
     p' = p /\ resp = None /\ err = Some err_query_failed).
Proof.
  split; [reflexivity |]. split.
  - apply (qb_received p ctx None serial false false later false p [mkDelivery serial 0 None] None);
      [reflexivity | discriminate | reflexivity | now constructor].
  - intros p' resp err H.
    inversion H as [H0 | cq p'' ds resp' H0 Hcq HQ Hs Hr | cq p'' ds resp' H0 Hcq HQ Hs]; subst.
    + discriminate.
    + inversion Hs. discriminate.
    + simpl in HQ. inversion HQ; subst. inversion Hs as [| v Hv]; subst.
      simpl in Hv. inversion Hv; subst. auto.
Qed.

(** ** AddResolvers *)

(** C2 (at the failing input): the guard of [AddResolvers] only refuses a
    rate equal to zero; with [qps = -1] the call returns no error, records
    the address, adds an endpoint whose interval [time.Second / -1] is
    negative, and lowers the aggregate QPS. *)
Theorem AddResolvers_negative_qps :
  AddResolvers net_ok pool_empty (-1) ["8.8.8.8"%string] 0 =
  (mkResolvers false
     [mkResolver false [] (newXchgMgr (500 * Millisecond)) "8.8.8.8:53" (-1) (- Second) 0 [] []]
     false ["8.8.8.8"%string] [] (-1) false (500 * Millisecond),
   None).
Proof. vm_compute. reflexivity. Qed.

(** ** QueryBlocking *)

Definition empty_answer (m : dnsMsg) : bool :=
  match Answer m with [] => true | _ => false end.

(** C7 as the code has it: the two errors differ.  [QueryBlocking]
    returns "the context expired" only when the context is done at its
    first [select] or when the context case is taken at the second, and
    then with the caller's message (on which the no-response code may have
    been set in place).  Otherwise the channel case was taken: it returns
    exactly the value [Query] or the pool sent on the channel, with "query
    failed" when that value is nil and a nil error when it is not (also
    for an empty or no-response message). *)
Theorem QueryBlocking_results (p : Resolvers) (ctx : nat) (msg : option dnsMsg) (serial : nat)
    (ctx0 ctx1 : bool) (later : option (option dnsMsg)) (p' : Resolvers)
    (resp : option dnsMsg) (err : option string) :
  QueryBlocking p ctx msg serial ctx0 ctx1 later p' resp err ->
  err_ctx_expired <> err_query_failed /\
  ((err = Some err_ctx_expired /\ (ctx0 = true \/ ctx1 = true) /\
    (resp = msg \/ resp = no_response_msg msg))
   \/ (ctx0 = false /\
       exists ctxq ds, Query p ctxq ctx msg 0 serial = Ran p' ds /\
         chan_value ds later = Some resp /\
         err = (match resp with None => Some err_query_failed | Some _ => None end))).
Proof.
  intros H. split; [discriminate |].
  inversion H as [H0 | cq p'' ds resp' H0 Hcq HQ Hs Hr | cq p'' ds resp' H0 Hcq HQ Hs]; subst.
  - left. split; [reflexivity |]. split; [left; reflexivity | left; reflexivity].
  - left. split; [reflexivity |]. inversion Hs as [Hc |]. split; [right; exact Hc |].
    destruct Hr as [-> | [-> ->]]; [| right; reflexivity].
    unfold Query in HQ. destruct msg as [m |].
    + destruct (cq || rdone p).
      * injection HQ as _ <-. right. reflexivity.
      * destruct (Question m); [discriminate |]. injection HQ as _ <-. left. reflexivity.
    + injection HQ as _ <-. left. reflexivity.
  - right. split; [reflexivity |]. exists cq, ds. split; [exact HQ |].
    inversion Hs as [| v Hv]. split; [exact Hv | reflexivity].
Qed.

Lemma QueryBlocking_results_witness :
  err_ctx_expired <> err_query_failed /\
  ((None = Some err_ctx_expired /\ (false = true \/ false = true) /\
    (Some (set_Rcode msg_example RcodeNoResponse) = Some msg_example \/
     Some (set_Rcode msg_example RcodeNoResponse) = no_response_msg (Some msg_example)))
   \/ (false = false /\
       exists ctxq ds, Query pool_stopped ctxq 0 (Some msg_example) 0 0 = Ran pool_stopped ds /\
         chan_value ds None = Some (Some (set_Rcode msg_example RcodeNoResponse)) /\
         (None : option string) = None)).
Proof.
  apply (QueryBlocking_results pool_stopped 0 (Some msg_example) 0 false false None pool_stopped).
  apply (qb_received pool_stopped 0 (Some msg_example) 0 false false None false pool_stopped
           [mkDelivery 0 0 (Some (set_Rcode msg_example RcodeNoResponse))]
           (Some (set_Rcode msg_example RcodeNoResponse))).
  - reflexivity.
  - discriminate.
  - vm_compute. reflexivity.
  - now constructor.
Defined.

(** C7 as stated fails twice.  On a shut-down pool with a live context,
    [QueryBlocking] gets back the no-response message, which has an empty
    answer section, and returns it with a nil error, not "query failed".
    And when the context is canceled after the first [select] but before
    [Query]'s, [Query] sends the no-response message at once; the context
    ended before any result arrived, yet the second [select] may take the
    channel case and return that message with a nil error instead of "the
    context expired". *)
Lemma QueryBlocking_empty_response_no_error :
  (exists resp,
     QueryBlocking pool_stopped 0 (Some msg_no_question) 0 false false None
       pool_stopped (Some resp) None /\
     empty_answer resp = true /\ Rcode resp = RcodeNoResponse) /\
  QueryBlocking pool_one 0 (Some msg_example) 0 false true None
    pool_one (Some (set_Rcode msg_example RcodeNoResponse)) None.
Proof.
  split.
  - exists (set_Rcode msg_no_question RcodeNoResponse). split; [| split; reflexivity].
    apply (qb_received pool_stopped 0 (Some msg_no_question) 0 false false None false pool_stopped
             [mkDelivery 0 0 (Some (set_Rcode msg_no_question RcodeNoResponse))]
             (Some (set_Rcode msg_no_question RcodeNoResponse))).
    + reflexivity.
    + discriminate.
    + vm_compute. reflexivity.
    + now constructor.
  - apply (qb_received pool_one 0 (Some msg_example) 0 false true None true pool_one
             [mkDelivery 0 0 (Some (set_Rcode msg_example RcodeNoResponse))]
             (Some (set_Rcode msg_example RcodeNoResponse))).
    + reflexivity.
    + reflexivity.
    + vm_compute. reflexivity.
    + now constructor.
Qed.

(** ** Stop *)

Definition reqs_of_resolver (r : resolver) : list request :=
  xchgQueue r ++ map xe_req (x_entries (xchgs r)).

(** What [resolver.stop] sends when it drains [r]. *)
Definition drain_of (r : resolver) : list delivery :=
  if done r then [] else map errNoResponse (reqs_of_resolver r).

Definition sum_qps (l : list resolver) : Z := fold_right (fun r acc => qps r + acc) 0 l.

(** The aggregate rate once the rates of [l] are taken off [q] one by one
    in Go's [int]: untouched when [l] is empty, the wrapped difference
    otherwise. *)
Definition sub_rates (q : Z) (l : list resolver) : Z :=
  match l with [] => q | _ :: _ => int_wrap (q - sum_qps l) end.

Lemma int_wrap_sub_l (a b : Z) : int_wrap (int_wrap a - b) = int_wrap (a - b).
Proof.
  unfold int_wrap. f_equal.
  replace ((a + 2 ^ 63) mod 2 ^ 64 - 2 ^ 63 - b + 2 ^ 63)
    with ((a + 2 ^ 63) mod 2 ^ 64 - b) by lia.
  rewrite Zminus_mod_idemp_l. f_equal. lia.
Qed.

Lemma int_wrap_add_l (a b : Z) : int_wrap (int_wrap a + b) = int_wrap (a + b).
Proof.
  replace (int_wrap a + b) with (int_wrap a - - b) by lia.
  rewrite int_wrap_sub_l. f_equal. lia.
Qed.

Lemma int_wrap_idem (a : Z) : int_wrap (int_wrap a) = int_wrap a.
Proof.
  replace (int_wrap a) with (int_wrap a - 0) at 1 by lia.
  rewrite int_wrap_sub_l. f_equal. lia.
Qed.

Lemma int_wrap_small (a : Z) : - 2 ^ 63 <= a < 2 ^ 63 -> int_wrap a = a.
Proof.
  intros H. unfold int_wrap. rewrite Z.mod_small by lia. lia.
Qed.

Definition stopped_from (r r' : resolver) : Prop :=
  r' = fst (resolver_stop r) /\ done r' = true /\
  (done r = false -> xchgQueue r' = [] /\ x_entries (xchgs r') = []).

Lemma resolver_stop_spec (r : resolver) :
  resolver_stop r = (fst (resolver_stop r), drain_of r) /\ stopped_from r (fst (resolver_stop r)).
Proof.
  unfold stopped_from, drain_of, resolver_stop, reqs_of_resolver, x_removeAll.
  destruct (done r) eqn:Hd; simpl.
  - split; [reflexivity |]. split; [reflexivity |]. split; [assumption | discriminate].
  - rewrite map_app. split; [reflexivity |]. split; [reflexivity |]. auto.
Qed.

Lemma stop_all_spec (ms : bool) (q : Z) (l : list resolver) :
  stop_all ms q l =
  (if ms then q else sub_rates q l, map (fun r => fst (resolver_stop r)) l, flat_map drain_of l).
Proof.
  revert q. induction l as [| r l IH]; intros q; simpl.
  - destruct ms; reflexivity.
  - destruct (resolver_stop_spec r) as [E _]. rewrite E. rewrite IH.
    destruct ms; [reflexivity |]. f_equal. f_equal.
    destruct l as [| r' l']; simpl.
    + f_equal. lia.
    + rewrite int_wrap_sub_l. f_equal. lia.
Qed.

(** C8: the first [Stop] marks the pool done, stops every endpoint
    (draining the queue and table of each running one into no-response
    results), closes the selector and lowers the aggregate QPS by the
    endpoints' rates when no maximum was set; a second [Stop] returns at
    once with no effect, so every later call is a no-op as well. *)
Theorem Stop_idempotent (p p1 : Resolvers) (ds1 : list delivery) :
  rdone p = false -> Stop p = (p1, ds1) ->
  rdone p1 = true /\ pool_closed p1 = true /\
  Forall2 stopped_from (pool p) (pool p1) /\
  ds1 = flat_map drain_of (pool p) /\
  rqps p1 = (if maxSet p then rqps p else sub_rates (rqps p) (pool p)) /\
  Stop p1 = (p1, []).
Proof.
  intros Hd HS. unfold Stop in HS. rewrite Hd, stop_all_spec in HS.
  injection HS as <- <-. simpl.
  split; [reflexivity |]. split; [reflexivity |].
  split; [| auto].
  induction (pool p) as [| r l IH]; simpl; constructor; auto.
  apply resolver_stop_spec.
Qed.

Lemma Stop_idempotent_witness :
  rdone (fst (Stop pool_one)) = true /\ pool_closed (fst (Stop pool_one)) = true /\
  Forall2 stopped_from (pool pool_one) (pool (fst (Stop pool_one))) /\
  snd (Stop pool_one) = flat_map drain_of (pool pool_one) /\
  rqps (fst (Stop pool_one)) =
    (if maxSet pool_one then rqps pool_one else sub_rates (rqps pool_one) (pool pool_one)) /\
  Stop (fst (Stop pool_one)) = (fst (Stop pool_one), []).
Proof.
  apply (Stop_idempotent pool_one (fst (Stop pool_one)) (snd (Stop pool_one)));
    reflexivity.
Defined.

(** ** The send step *)

Lemma xkey_eqb_refl (k : xkey) : xkey_eqb k k = true.
Proof. destruct k. unfold xkey_eqb. simpl. now rewrite N.eqb_refl, String.eqb_refl. Qed.

Lemma x_add_updateTimestamp (x x' : xchgMgr) (req : request) (now : Z) :
  x_add x req = Some x' ->
  x_updateTimestamp x' (ID req) (RName req) now =
  mkXchgMgr (x_timeout x)
    (x_entries x ++ [mkXentry (mk_xkey (ID req) (RName req)) req (now + x_timeout x)]).
Proof.
  unfold x_add, x_updateTimestamp, x_has.
  destruct (existsb _ _) eqn:He; [discriminate |]. intros E. injection E as <-. simpl.
  f_equal. rewrite map_app. simpl. rewrite xkey_eqb_refl. f_equal.
  induction (x_entries x) as [| e l IH]; simpl in *; [reflexivity |].
  apply orb_false_iff in He as [He1 He2]. rewrite He1, IH; auto.
Qed.

(** C5: [writeNextMsg] pops the head of a running endpoint's queue; a
    request whose context is canceled is failed without a write; otherwise
    exactly one write is made, and after a successful write and insertion
    the table gains the entry with deadline [now] plus the table's timeout
    and the next send time becomes
    [now + inc]; after a failed write or on a key already in the table the
    request is failed and the table and send time stay as they were. *)
Theorem writeNextMsg_spec (r : resolver) (ctx_done : nat -> bool) (write_ok : bool) (now : Z)
    (req : request) (rest : list request) (r' : resolver) (ds : list delivery) :
  done r = false -> xchgQueue r = req :: rest ->
  writeNextMsg r ctx_done write_ok now = (r', ds) ->
  xchgQueue r' = rest /\ done r' = false /\
  (ctx_done (Ctx req) = true ->
     ds = [errNoResponse req] /\ conn_writes r' = conn_writes r /\
     xchgs r' = xchgs r /\ next r' = next r) /\
  (ctx_done (Ctx req) = false ->
     conn_writes r' = conn_writes r ++ [Msg req] /\
     (write_ok = true -> x_has (xchgs r) (mk_xkey (ID req) (RName req)) = false ->
        ds = [] /\
        xchgs r' = mkXchgMgr (x_timeout (xchgs r))
                     (x_entries (xchgs r) ++
                        [mkXentry (mk_xkey (ID req) (RName req)) req (now + x_timeout (xchgs r))]) /\
        next r' = now + inc r) /\
     (write_ok = false \/ x_has (xchgs r) (mk_xkey (ID req) (RName req)) = true ->
        ds = [errNoResponse req] /\ xchgs r' = xchgs r /\ next r' = next r)).
Proof.
  intros Hd Hq HW. unfold writeNextMsg in HW. rewrite Hd, Hq in HW.
  destruct (ctx_done (Ctx req)) eqn:Hc.
  - injection HW as <- <-. simpl. rewrite Hd.
    split; [reflexivity | split; [reflexivity |]]. split; [auto | discriminate].
  - destruct (if write_ok then x_add (xchgs (write_conn (set_xchgQueue r rest) (Msg req))) req
              else None) as [x |] eqn:Ha.
    + destruct write_ok; [| discriminate]. simpl in Ha.
      injection HW as <- <-. simpl. rewrite Hd.
      split; [reflexivity | split; [reflexivity |]]. split; [discriminate |].
      intros _. split; [reflexivity |]. split.
      * intros _ _. split; [reflexivity |]. split; [| reflexivity].
        apply x_add_updateTimestamp. exact Ha.
      * intros [E | E]; [discriminate |]. unfold x_add in Ha. rewrite E in Ha. discriminate.
    + injection HW as <- <-. simpl. rewrite Hd.
      split; [reflexivity | split; [reflexivity |]]. split; [discriminate |].
      intros _. split; [reflexivity |]. split.
      * intros Hw Hx. subst write_ok. simpl in Ha. unfold x_add in Ha. simpl in Ha.
        rewrite Hx in Ha. discriminate.
      * intros _. auto.
Qed.

Definition req_example : request :=
  mkRequest 0 4660%N "www.example.com" 1%N msg_example 1 0.

Definition resolver_with_req : resolver := set_xchgQueue (resolver_fresh 0) [req_example].

Lemma writeNextMsg_spec_witness :
  let '(r', ds) := writeNextMsg resolver_with_req (fun _ => false) true (5 * Millisecond) in
  xchgs r' = mkXchgMgr (500 * Millisecond)
               [mkXentry (mk_xkey 4660%N "www.example.com") req_example
                  (5 * Millisecond + 500 * Millisecond)] /\
  ds = [] /\ next r' = 5 * Millisecond + Second / 10.
Proof.
  destruct (writeNextMsg_spec resolver_with_req (fun _ => false) true (5 * Millisecond)
              req_example [] _ _ eq_refl eq_refl eq_refl)
    as (_ & _ & _ & H).
  destruct (H eq_refl) as (_ & Hok & _).
  destruct (Hok eq_refl eq_refl) as (Hds & Hx & Hn).
  split; [exact Hx | split; [exact Hds | exact Hn]].
Defined.

(** ** The receive step *)

Lemma x_remove_aux_some (k : xkey) (l l' : list xentry) (req : request) :
  x_remove_aux k l = (Some req, l') ->
  exists pre e post,
    l = pre ++ e :: post /\ l' = pre ++ post /\ xe_req e = req /\
    xkey_eqb (xe_key e) k = true /\ Forall (fun e' => xkey_eqb (xe_key e') k = false) pre.
Proof.
  revert l'. induction l as [| e l IH]; intros l' H; simpl in H; [discriminate |].
  destruct (xkey_eqb (xe_key e) k) eqn:Hk.
  - injection H as <- <-. exists [], e, l. repeat split; auto.
  - destruct (x_remove_aux k l) as [o l''] eqn:Hr. injection H as -> <-.
    destruct (IH l'' eq_refl) as (pre & e' & post & -> & -> & Hreq & Hk' & Hpre).
    exists (e :: pre), e', post. simpl. repeat split; auto.
Qed.

Lemma x_remove_aux_none (k : xkey) (l l' : list xentry) :
  x_remove_aux k l = (None, l') ->
  l' = l /\ Forall (fun e' => xkey_eqb (xe_key e') k = false) l.
Proof.
  revert l'. induction l as [| e l IH]; intros l' H; simpl in H.
  - injection H as <-. split; auto.
  - destruct (xkey_eqb (xe_key e) k) eqn:Hk; [discriminate |].
    destruct (x_remove_aux k l) as [o l''] eqn:Hr. injection H as -> <-.
    destruct (IH l'' eq_refl) as [-> Hf]. split; auto.
Qed.

(** One receive step: for a received message with a question, [responses]
    looks the table up by (id, question name).  On a match the entry is taken out of
    the table; a truncated message delivers nothing and hands the request
    to one [tcpExchange] task, which sends exactly one result (the TCP
    answer, counted in the statistics, or no-response on failure); a
    message that is not truncated is sent to the request and counted.
    Without a match the message is dropped and nothing changes. *)
Lemma responses_step_spec (r : resolver) (m : dnsMsg) (q : dnsQuestion)
    (qs : list dnsQuestion) :
  done r = false -> Question m = q :: qs ->
  (forall req x',
     x_remove (xchgs r) (Id m) (Name q) = (Some req, x') ->
     (exists pre e post,
        x_entries (xchgs r) = pre ++ e :: post /\ x_entries x' = pre ++ post /\
        x_timeout x' = x_timeout (xchgs r) /\
        xe_req e = req /\ xkey_eqb (xe_key e) (mk_xkey (Id m) (Name q)) = true) /\
     (Truncated m = true ->
        responses_step r (Some m) = (set_xchgs r x', [], Some req) /\
        (forall res out,
           tcpExchange res req out =
           (match out with Some m' => collectStats res m' | None => res end,
            [match out with Some m' => deliver req m' | None => errNoResponse req end]))) /\
     (Truncated m = false ->
        responses_step r (Some m) = (collectStats (set_xchgs r x') m, [deliver req m], None))) /\
  (forall x',
     x_remove (xchgs r) (Id m) (Name q) = (None, x') ->
     responses_step r (Some m) = (r, [], None)).
Proof.
  intros Hd Hq. split.
  - intros req x' Hr.
    assert (Hr' := Hr). unfold x_remove in Hr'.
    destruct (x_remove_aux (mk_xkey (Id m) (Name q)) (x_entries (xchgs r))) as [o l] eqn:Ha.
    injection Hr' as -> <-.
    split.
    + destruct (x_remove_aux_some _ _ _ _ Ha) as (pre & e & post & H1 & H2 & H3 & H4 & _).
      exists pre, e, post. repeat split; auto.
    + unfold responses_step. rewrite Hd, Hq, Hr.
      split; intros Ht; rewrite Ht; [| reflexivity].
      split; [reflexivity |]. intros res [m' |]; reflexivity.
  - intros x' Hr. unfold responses_step. rewrite Hd, Hq, Hr. reflexivity.
Qed.

Definition resolver_waiting : resolver :=
  fst (writeNextMsg resolver_with_req (fun _ => false) true 0).

(** ** The expiry sweep *)

Lemma xkey_eqb_eq (a b : xkey) : xkey_eqb a b = true <-> a = b.
Proof.
  destruct a as [i1 n1], b as [i2 n2]. unfold xkey_eqb. simpl.
  rewrite andb_true_iff, N.eqb_eq, String.eqb_eq. split; [intros [-> ->] | intros E; injection E]; auto.
Qed.

Lemma fail_expired_spec (r : resolver) (reqs : list request) :
  snd (fail_expired r reqs) = map errNoResponse reqs /\
  xchgs (fst (fail_expired r reqs)) = xchgs r /\ done (fst (fail_expired r reqs)) = done r.
Proof.
  revert r. induction reqs as [| req rest IH]; intros r; simpl; [auto |].
  destruct (fail_expired (collectStats r (set_Rcode (Msg req) RcodeNoResponse)) rest) as [r' ds] eqn:E.
  destruct (IH (collectStats r (set_Rcode (Msg req) RcodeNoResponse))) as (H1 & H2 & H3). rewrite E in *. simpl in *.
  rewrite H1. auto.
Qed.

(** The first tick of a ticker started at [t0] strictly after [d]. *)
Definition first_tick_after (t0 d : Z) : Z :=
  t0 + sweep_interval * ((d - t0) / sweep_interval + 1).

Lemma first_tick_after_bounds (t0 d : Z) :
  d < first_tick_after t0 d <= d + sweep_interval.
Proof.
  unfold first_tick_after, sweep_interval, Millisecond.
  pose proof (Z.div_mod (d - t0) (100 * 1000000) ltac:(lia)).
  pose proof (Z.mod_pos_bound (d - t0) (100 * 1000000) ltac:(lia)). lia.
Qed.

(** Every tick of the sweep at any time [t]: the results it sends are the
    no-response results of the entries whose deadline is before [t], in
    table order, and the table keeps exactly the other entries. *)
Lemma timeouts_step_spec (r r' : resolver) (t : Z) (ds : list delivery) :
  done r = false -> timeouts_step r t = (r', ds) ->
  ds = map (fun e => errNoResponse (xe_req e)) (filter (x_expired (xchgs r) t) (x_entries (xchgs r))) /\
  x_entries (xchgs r') = filter (fun e => negb (x_expired (xchgs r) t e)) (x_entries (xchgs r)) /\
  x_timeout (xchgs r') = x_timeout (xchgs r) /\ done r' = false.
Proof.
  intros Hd HT. unfold timeouts_step, x_removeExpired in HT. rewrite Hd in HT.
  destruct (fail_expired_spec (set_xchgs r (mkXchgMgr (x_timeout (xchgs r))
              (filter (fun e' => negb (x_expired (xchgs r) t e')) (x_entries (xchgs r)))))
              (map xe_req (filter (x_expired (xchgs r) t) (x_entries (xchgs r)))))
    as (H1 & H2 & H3).
  rewrite HT in H1, H2, H3. simpl in H1, H2, H3.
  split; [rewrite H1, map_map; reflexivity |].
  rewrite H2, H3. split; [reflexivity | split; [reflexivity | exact Hd]].
Qed.

(** An entry still in the table is failed by a tick at the first tick of
    the ticker after its deadline, at most one interval later. *)
Lemma first_tick_fails (r : resolver) (t0 : Z) (e : xentry) :
  In e (x_entries (xchgs r)) ->
  xe_deadline e < first_tick_after t0 (xe_deadline e) <= xe_deadline e + sweep_interval /\
  x_expired (xchgs r) (first_tick_after t0 (xe_deadline e)) e = true.
Proof.
  intros _. pose proof (first_tick_after_bounds t0 (xe_deadline e)) as Hb.
  split; [exact Hb |]. unfold x_expired. apply Z.ltb_lt. lia.
Qed.

Definition entry_waiting : xentry :=
  mkXentry (mk_xkey 4660%N "www.example.com") req_example (500 * Millisecond).

(** *** Runs of the system *)

Ltac step_by H := eapply steps_cons; [H |].

Lemma steps_trans (w1 w2 w3 : World) : steps w1 w2 -> steps w2 w3 -> steps w1 w3.
Proof. induction 1; [auto | intros; eapply steps_cons; eauto]. Qed.

(** A query sent at time 0 to an endpoint with a 500ms timeout gets a
    truncated answer after 1ms; the TCP retry answers 30s later, within the
    client's one-minute timeout. *)
Definition res_sent : resolver :=
  write_conn (set_next (set_xchgs (resolver_fresh 0)
                          (mkXchgMgr (500 * Millisecond) [entry_waiting])) (Second / 10))
    msg_example.

Definition run_truncated_sent : World := mkWorld (set_pool pool_one [res_sent]) [] 0 [] 1 true [].

Lemma run_truncated_prefix : steps world_one run_truncated_sent.
Proof.
  step_by ltac:(eapply (st_query _ 0%nat (Some msg_example) 1%nat); reflexivity).
  step_by ltac:(eapply (st_admit_pick _ req_example [] 0%nat); reflexivity).
  step_by ltac:(eapply (st_send _ 0%nat _ true);
                [reflexivity | reflexivity | reflexivity | vm_compute; discriminate
                | discriminate | reflexivity]).
  vm_compute. apply steps_refl.
Qed.

Lemma run_truncated_suffix :
  exists w_end, steps run_truncated_sent w_end /\
    log w_end = [(30 * Second, deliver req_example msg_tcp_answer)].
Proof.
  eexists. split.
  - step_by ltac:(apply (st_time _ Millisecond); vm_compute; discriminate).
    step_by ltac:(eapply (st_recv _ 0%nat _ (Some msg_truncated)); reflexivity).
    step_by ltac:(apply (st_time _ (30 * Second - Millisecond)); vm_compute; discriminate).
    step_by ltac:(eapply (st_tcp _ 0%nat 0%nat req_example Millisecond _ (Some msg_tcp_answer));
                  [reflexivity | vm_compute; discriminate | reflexivity | reflexivity]).
    apply steps_refl.
  - reflexivity.
Qed.

(** C6 as stated fails: the request below is written at time 0 on an
    endpoint whose timeout is 500ms, yet its only result arrives at 30s,
    from the TCP retry of a truncated answer, far beyond timeout + sweep
    interval. *)
Lemma truncated_exchange_exceeds_bound :
  exists w_end res,
    steps world_one run_truncated_sent /\ steps run_truncated_sent w_end /\
    nth_error (pool (P run_truncated_sent)) 0 = Some res /\
    x_entries (xchgs res) = [entry_waiting] /\ now run_truncated_sent = 0 /\
    x_timeout (xchgs res) = 500 * Millisecond /\
    xe_deadline entry_waiting = now run_truncated_sent + x_timeout (xchgs res) /\
    log w_end = [(30 * Second, deliver req_example msg_tcp_answer)] /\
    xe_deadline entry_waiting + sweep_interval < 30 * Second.
Proof.
  destruct run_truncated_suffix as (w_end & Hs & Hl).
  eexists w_end, _. split; [exact run_truncated_prefix |]. split; [exact Hs |].
  split; [reflexivity |]. split; [reflexivity |]. split; [reflexivity |].
  split; [reflexivity |]. split; [reflexivity |]. split; [exact Hl |]. vm_compute. reflexivity.
Qed.

(** ** Delivery after shutdown *)

Section Stranded.

Variable n : nat.

Definition free_req (q : request) : Prop := rq_serial q <> n.

Definition FreeR (r : resolver) : Prop :=
  Forall free_req (xchgQueue r) /\ Forall (fun e => free_req (xe_req e)) (x_entries (xchgs r)).

Definition free_dv (d : delivery) : Prop := dv_serial d <> n.

Lemma Forall_set_nth {A : Type} (Q : A -> Prop) (l : list A) (i : nat) (a : A) :
  Forall Q l -> Q a -> Forall Q (set_nth l i a).
Proof.
  revert i. induction l as [| x l IH]; intros i Hl Ha; [constructor |].
  inversion Hl; subst. destruct i; simpl; constructor; auto.
Qed.

Lemma Forall_nth_error {A : Type} (Q : A -> Prop) (l : list A) (i : nat) (a : A) :
  Forall Q l -> nth_error l i = Some a -> Q a.
Proof.
  intros Hl Hn. apply nth_error_In in Hn. rewrite Forall_forall in Hl. auto.
Qed.

Lemma Forall_remove_nth {A : Type} (Q : A -> Prop) (l : list A) (i : nat) :
  Forall Q l -> Forall Q (remove_nth l i).
Proof.
  unfold remove_nth. revert i. induction l as [| x l IH]; intros i Hl.
  - destruct i; constructor.
  - inversion Hl; subst. destruct i; simpl; [assumption |]. constructor; [assumption |].
    apply IH. assumption.
Qed.

Lemma FreeR_set_xchgs (r : resolver) (x : xchgMgr) :
  FreeR r -> Forall (fun e => free_req (xe_req e)) (x_entries x) -> FreeR (set_xchgs r x).
Proof. intros [H1 _] H2. split; assumption. Qed.

Lemma FreeR_collectStats (r : resolver) (m : dnsMsg) : FreeR r -> FreeR (collectStats r m).
Proof. auto. Qed.

Ltac no_spawn :=
  match goal with
  | Hr : FreeR ?r |- FreeR ?r /\ _ =>
      split; [exact Hr | split; [constructor | intros ? ?; discriminate]]
  end.

Lemma responses_step_free (r r' : resolver) (read : option dnsMsg) (ds : list delivery)
    (spawn : option request) :
  FreeR r -> responses_step r read = (r', ds, spawn) ->
  FreeR r' /\ Forall free_dv ds /\ (forall q, spawn = Some q -> free_req q).
Proof.
  intros Hr HS. unfold responses_step in HS.
  destruct (done r); [injection HS as <- <- <-; no_spawn |].
  destruct read as [m |]; [| injection HS as <- <- <-; no_spawn].
  destruct (Question m) as [| q qs]; [injection HS as <- <- <-; no_spawn |].
  unfold x_remove in HS.
  destruct (x_remove_aux (mk_xkey (Id m) (Name q)) (x_entries (xchgs r))) as [[req |] l] eqn:Ha;
    [| injection HS as <- <- <-; no_spawn].
  apply x_remove_aux_some in Ha as (pre & e & post & Hl & -> & Hreq & _ & _).
  destruct Hr as [Hq Hx]. rewrite Hl in Hx. apply Forall_app in Hx as [Hpre Hx].
  inversion Hx as [| ? ? He Hpost]; subst.
  assert (Hr1 : FreeR (set_xchgs r (mkXchgMgr (x_timeout (xchgs r)) (pre ++ post))))
    by (split; [exact Hq | simpl; apply Forall_app; auto]).
  destruct (Truncated m); injection HS as <- <- <-.
  - split; [exact Hr1 | split; [constructor | intros q' E; injection E as <-; exact He]].
  - split; [exact Hr1 | split; [constructor; [exact He | constructor] | intros ? ?; discriminate]].
Qed.

Lemma tcpExchange_free (r r' : resolver) (req : request) (out : option dnsMsg)
    (ds : list delivery) :
  FreeR r -> free_req req -> tcpExchange r req out = (r', ds) -> FreeR r' /\ Forall free_dv ds.
Proof.
  intros Hr Hq HT. destruct out; injection HT as <- <-; split; auto; constructor; auto.
Qed.

Lemma fail_expired_free (r : resolver) (reqs : list request) :
  FreeR r -> Forall free_req reqs ->
  FreeR (fst (fail_expired r reqs)) /\ Forall free_dv (snd (fail_expired r reqs)).
Proof.
  revert r. induction reqs as [| q reqs IH]; intros r Hr Hq; simpl; [auto |].
  inversion Hq; subst.
  destruct (IH (collectStats r (set_Rcode (Msg q) RcodeNoResponse)) Hr ltac:(assumption)) as [Hf1 Hf2].
  destruct (fail_expired (collectStats r (set_Rcode (Msg q) RcodeNoResponse)) reqs) as [r' ds]. simpl in *. auto.
Qed.

Lemma timeouts_step_free (r r' : resolver) (t : Z) (ds : list delivery) :
  FreeR r -> timeouts_step r t = (r', ds) -> FreeR r' /\ Forall free_dv ds.
Proof.
  intros Hr HT. unfold timeouts_step in HT.
  destruct (done r); [injection HT as <- <-; auto |].
  unfold x_removeExpired in HT. destruct Hr as [Hq Hx].
  assert (Hf := fail_expired_free
            (set_xchgs r (mkXchgMgr (x_timeout (xchgs r))
               (filter (fun e => negb (x_expired (xchgs r) t e)) (x_entries (xchgs r)))))
            (map xe_req (filter (x_expired (xchgs r) t) (x_entries (xchgs r))))).
  rewrite HT in Hf. apply Hf.
  - split; [exact Hq | simpl; rewrite Forall_forall in *; intros e He; apply filter_In in He;
                      apply Hx; tauto].
  - rewrite Forall_forall in *. intros q Hin. apply in_map_iff in Hin as (e & <- & He).
    apply filter_In in He. apply Hx. tauto.
Qed.

End Stranded.

Lemma Query_done (p p' : Resolvers) (b : bool) (c : nat) (msg : option dnsMsg) (ch s : nat)
    (ds : list delivery) :
  rdone p = true -> Query p b c msg ch s = Ran p' ds ->
  p' = p /\ Forall (fun d => dv_serial d = s) ds.
Proof.
  intros Hd HQ. unfold Query in HQ. rewrite Hd, orb_true_r in HQ.
  destruct msg; injection HQ as <- <-; split; auto.
Qed.

Lemma add_each_free (n : nat) (env : net_env) (p : Resolvers) (q : Z) (addrs : list string)
    (t : Z) :
  Forall (FreeR n) (pool p) ->
  rdone (add_each env p q addrs t) = rdone p /\ queue (add_each env p q addrs t) = queue p /\
  Forall (FreeR n) (pool (add_each env p q addrs t)).
Proof.
  revert p. induction addrs as [| a addrs IH]; intros p Hp; simpl; [auto |].
  destruct (existsb (String.eqb a) (rmap p)); [apply IH; exact Hp |].
  destruct (initializeResolver env p a q t) as [res |] eqn:Hi; [| apply IH; exact Hp].
  edestruct IH as (H1 & H2 & H3); [| split; [exact H1 | split; [exact H2 | exact H3]]].
  simpl. apply Forall_app. split; [exact Hp |]. constructor; [| constructor].
  unfold initializeResolver in Hi. destruct (dial_ok env _); [| discriminate].
  injection Hi as <-. split; constructor.
Qed.

Lemma Forall_emit (n : nat) (w : World) (ds : list delivery) :
  Forall (fun td => free_dv n (snd td)) (log w) -> Forall (free_dv n) ds ->
  Forall (fun td => free_dv n (snd td)) (emit w ds).
Proof.
  intros H1 H2. unfold emit. apply Forall_app. split; [exact H1 |].
  apply Forall_map. eapply Forall_impl; [| exact H2]. auto.
Qed.

(** The state of a run after shutdown in which the [n]-th query is left in
    the ingress queue once the admission loop has returned. *)
Definition Stuck (n : nat) (w : World) : Prop :=
  rdone (P w) = true /\ adm_alive w = false /\ (n < serial w)%nat /\
  (exists q, In q (queue (P w)) /\ rq_serial q = n) /\
  Forall (FreeR n) (pool (P w)) /\
  Forall (fun t => free_req n (snd (fst t))) (tcp_tasks w) /\
  Forall (fun td => free_dv n (snd td)) (log w).

Ltac stuck_split :=
  split; [assumption | split; [assumption | split; [assumption | split; [assumption |
  split; [| split]]]]].

Lemma Stuck_step (n : nat) (w w' : World) : Stuck n w -> step w w' -> Stuck n w'.
Proof.
  intros (Hd & Ha & Hs & Hq & Hp & Ht & Hl) HS.
  destruct HS as [c msg ch p' ds HQ | Ha' Hd' | req rest Ha' | req rest i res res' ds Ha'
                 | i res write_ok res' ds Hd' | i res read res' ds spawn Hn HR
                 | k i req t0 res out res' ds Hk Ht0 Hn HT | i res res' ds Hn HT
                 | p' ds HS | env q addrs p' err HA | c | d Hd0];
    unfold Stuck; simpl.
  - destruct (Query_done _ _ _ _ _ _ _ _ Hd HQ) as [-> Hds].
    split; [exact Hd | split; [exact Ha | split; [lia |]]].
    split; [exact Hq | split; [exact Hp | split; [exact Ht |]]].
    apply Forall_emit; [exact Hl |].
    eapply Forall_impl; [| exact Hds]. intros dv E. cbv beta in E. unfold free_dv. lia.
  - rewrite Ha in Ha'. discriminate.
  - rewrite Ha in Ha'. discriminate.
  - rewrite Ha in Ha'. discriminate.
  - rewrite Hd in Hd'. discriminate.
  - assert (Hr := Forall_nth_error _ _ _ _ Hp Hn).
    destruct (responses_step_free n _ _ _ _ _ Hr HR) as (Hr' & Hds & Hsp).
    stuck_split.
    + apply Forall_set_nth; assumption.
    + apply Forall_app. split; [exact Ht |]. destruct spawn as [q |]; constructor; auto.
    + apply Forall_emit; assumption.
  - assert (Hr := Forall_nth_error _ _ _ _ Hp Hn).
    assert (Hq' := Forall_nth_error _ _ _ _ Ht Hk). simpl in Hq'.
    destruct (tcpExchange_free n _ _ _ _ _ Hr Hq' HT) as (Hr' & Hds).
    stuck_split.
    + apply Forall_set_nth; assumption.
    + apply Forall_remove_nth. exact Ht.
    + apply Forall_emit; assumption.
  - assert (Hr := Forall_nth_error _ _ _ _ Hp Hn).
    destruct (timeouts_step_free n _ _ _ _ Hr HT) as (Hr' & Hds).
    stuck_split.
    + apply Forall_set_nth; assumption.
    + rewrite app_nil_r. exact Ht.
    + apply Forall_emit; assumption.
  - unfold Stop in HS. rewrite Hd in HS. injection HS as <- <-.
    stuck_split; [assumption | assumption |]. apply Forall_emit; [exact Hl | constructor].
  - unfold AddResolvers in HA. destruct (Z.eqb q 0); injection HA as <- _;
      [stuck_split; assumption |].
    destruct (add_each_free n env (P w) q addrs (now w) Hp) as (H1 & H2 & H3).
    rewrite H1, H2. stuck_split; assumption.
  - stuck_split; assumption.
  - stuck_split; assumption.
Qed.

Lemma Stuck_steps (n : nat) (w w' : World) : Stuck n w -> steps w w' -> Stuck n w'.
Proof. intros H HS. induction HS; eauto using Stuck_step. Qed.

Lemma Stuck_no_delivery (n : nat) (w : World) : Stuck n w -> deliveries_of n w = 0%nat.
Proof.
  intros (_ & _ & _ & _ & _ & _ & Hl). unfold deliveries_of.
  induction (log w) as [| td l IH]; [reflexivity |].
  inversion Hl as [| ? ? Htd Hl']; subst. simpl.
  destruct (Nat.eqb_spec (dv_serial (snd td)) n); [contradiction | auto].
Qed.

(** A query is queued, the pool is stopped before the admission loop pops
    it, and the admission loop's [select] then takes the [r.done] case. *)
Definition run_stuck : World :=
  mkWorld (fst (Stop (set_queue pool_one [req_example]))) [] 0 [] 1 false [].

Lemma run_stuck_reached : steps world_one run_stuck.
Proof.
  step_by ltac:(eapply (st_query _ 0%nat (Some msg_example) 1%nat); reflexivity).
  step_by ltac:(eapply st_stop; reflexivity).
  step_by ltac:(apply st_admit_exit; reflexivity).
  vm_compute. apply steps_refl.
Qed.

Lemma run_stuck_Stuck : Stuck 0 run_stuck.
Proof.
  unfold Stuck. vm_compute.
  split; [reflexivity | split; [reflexivity | split; [auto |]]].
  split; [eexists; split; [left; reflexivity | reflexivity] |].
  split; [| split; constructor].
  repeat constructor.
Qed.

(** C1 fails: from a pool with one endpoint, the first query is submitted
    and then [Stop] is called before it is admitted; [Stop] drains the
    endpoints but not the ingress queue, and the admission loop returns,
    so in every continuation of the run that query receives no result. *)
Lemma stranded_query_never_answered :
  exists w, steps world_one w /\ (0 < serial w)%nat /\
    (exists q, In q (queue (P w)) /\ rq_serial q = 0%nat) /\
    forall w', steps w w' -> deliveries_of 0 w' = 0%nat.
Proof.
  exists run_stuck. split; [exact run_stuck_reached |].
  split; [vm_compute; auto |].
  split; [exists req_example; split; [vm_compute; left; reflexivity | reflexivity] |].
  intros w' Hs. exact (Stuck_no_delivery 0 w' (Stuck_steps 0 _ _ run_stuck_Stuck Hs)).
Qed.

(** ** Ownership of requests: at most one result per query

    Every request of a run sits in exactly one place: the ingress queue, an
    endpoint's queue or table, or a pending [tcpExchange] task, until one
    result is sent for it.  The serials of these places and of the log
    stay a permutation of each other across steps, new queries getting a
    fresh serial. *)

From Stdlib Require Import Permutation.

Definition res_serials (r : resolver) : list nat := map rq_serial (reqs_of_resolver r).

Definition ds_serials (ds : list delivery) : list nat := map dv_serial ds.

Definition spawn_list (sp : option request) : list request :=
  match sp with Some q => [q] | None => [] end.

Lemma ds_serials_errNoResponse (l : list request) :
  ds_serials (map errNoResponse l) = map rq_serial l.
Proof. unfold ds_serials. rewrite map_map. reflexivity. Qed.

Lemma res_serials_eq (r : resolver) :
  res_serials r = map rq_serial (xchgQueue r) ++ map (fun e => rq_serial (xe_req e)) (x_entries (xchgs r)).
Proof. unfold res_serials, reqs_of_resolver. rewrite map_app, map_map. reflexivity. Qed.

Lemma resolver_stop_perm (r r' : resolver) (ds : list delivery) :
  resolver_stop r = (r', ds) -> Permutation (res_serials r) (res_serials r' ++ ds_serials ds).
Proof.
  unfold resolver_stop. destruct (done r); intros H; injection H as <- <-.
  - rewrite app_nil_r. reflexivity.
  - unfold res_serials, reqs_of_resolver. simpl.
    rewrite <- map_app, ds_serials_errNoResponse. reflexivity.
Qed.

Lemma resolver_query_perm (r r' : resolver) (req : request) (ds : list delivery) :
  resolver_query r req = (r', ds) ->
  Permutation (res_serials r ++ [rq_serial req]) (res_serials r' ++ ds_serials ds).
Proof.
  unfold resolver_query. destruct (done r); intros H; injection H as <- <-; [reflexivity |].
  rewrite !res_serials_eq. simpl. rewrite map_app, app_nil_r, <- !app_assoc.
  apply Permutation_app_head. apply Permutation_app_comm.
Qed.

Lemma x_updateTimestamp_reqs (x : xchgMgr) (id : N) (name : string) (t : Z) :
  map xe_req (x_entries (x_updateTimestamp x id name t)) = map xe_req (x_entries x).
Proof.
  unfold x_updateTimestamp. simpl. rewrite map_map.
  apply map_ext. intros e. destruct (xkey_eqb _ _); reflexivity.
Qed.

Lemma writeNextMsg_perm (r r' : resolver) (cd : nat -> bool) (wok : bool) (t : Z)
    (ds : list delivery) :
  writeNextMsg r cd wok t = (r', ds) -> Permutation (res_serials r) (res_serials r' ++ ds_serials ds).
Proof.
  unfold writeNextMsg. destruct (done r);
    [intros H; injection H as <- <-; rewrite app_nil_r; reflexivity |].
  destruct (xchgQueue r) as [| req rest] eqn:Hq;
    [intros H; injection H as <- <-; rewrite app_nil_r; reflexivity |].
  unfold res_serials, reqs_of_resolver. rewrite Hq.
  destruct (cd (Ctx req)).
  - intros H; injection H as <- <-. simpl. rewrite map_app.
    apply Permutation_cons_app. rewrite app_nil_r. reflexivity.
  - destruct (if wok then x_add (xchgs (write_conn (set_xchgQueue r rest) (Msg req))) req
              else None) as [x |] eqn:Ha.
    + intros H; injection H as <- <-. cbn -[x_updateTimestamp].
      rewrite x_updateTimestamp_reqs.
      destruct wok; [| discriminate]. unfold x_add in Ha. simpl in Ha.
      destruct (x_has (xchgs r) _); [discriminate |]. injection Ha as <-. simpl.
      rewrite !map_app, app_nil_r. simpl. rewrite app_assoc.
      apply Permutation_cons_app. rewrite app_nil_r. reflexivity.
    + intros H; injection H as <- <-. simpl. rewrite map_app.
      apply Permutation_cons_app. rewrite app_nil_r. reflexivity.
Qed.

Lemma responses_step_perm (r r' : resolver) (read : option dnsMsg) (ds : list delivery)
    (sp : option request) :
  responses_step r read = (r', ds, sp) ->
  Permutation (res_serials r) (res_serials r' ++ ds_serials ds ++ map rq_serial (spawn_list sp)).
Proof.
  intros HS. unfold responses_step in HS.
  assert (Hid : Permutation (res_serials r) (res_serials r ++ ds_serials [] ++ map rq_serial (spawn_list None)))
    by (simpl; rewrite app_nil_r; reflexivity).
  destruct (done r); [injection HS as <- <- <-; exact Hid |].
  destruct read as [m |]; [| injection HS as <- <- <-; exact Hid].
  destruct (Question m) as [| q qs]; [injection HS as <- <- <-; exact Hid |].
  unfold x_remove in HS.
  destruct (x_remove_aux (mk_xkey (Id m) (Name q)) (x_entries (xchgs r))) as [[req |] l] eqn:Ha;
    [| injection HS as <- <- <-; exact Hid].
  apply x_remove_aux_some in Ha as (pre & e & post & Hl & -> & Hreq & _ & _).
  assert (Hp : Permutation (res_serials r)
                 (map rq_serial (xchgQueue r) ++ map rq_serial (map xe_req (pre ++ post))
                  ++ [rq_serial req])).
  { unfold res_serials, reqs_of_resolver. rewrite Hl, !map_app. simpl. rewrite Hreq.
    apply Permutation_app_head. rewrite <- app_assoc. apply Permutation_app_head.
    apply Permutation_cons_append. }
  destruct (Truncated m); injection HS as <- <- <-;
    (eapply Permutation_trans; [exact Hp |]); unfold res_serials, reqs_of_resolver; simpl;
    rewrite !map_app, <- !app_assoc; reflexivity.
Qed.

Lemma filter_partition_perm {A : Type} (f : A -> bool) (g : A -> nat) (l : list A) :
  Permutation (map g l) (map g (filter (fun e => negb (f e)) l) ++ map g (filter f l)).
Proof.
  induction l as [| e l IH]; simpl; [reflexivity |].
  destruct (f e); simpl.
  - apply Permutation_cons_app. exact IH.
  - apply perm_skip. exact IH.
Qed.

Lemma fail_expired_queue (r : resolver) (reqs : list request) :
  xchgQueue (fst (fail_expired r reqs)) = xchgQueue r.
Proof.
  revert r. induction reqs as [| q l IH]; intros r; simpl; [reflexivity |].
  specialize (IH (collectStats r (set_Rcode (Msg q) RcodeNoResponse))).
  destruct (fail_expired (collectStats r (set_Rcode (Msg q) RcodeNoResponse)) l) as [r2 ds2]. exact IH.
Qed.

Lemma timeouts_step_perm (r r' : resolver) (t : Z) (ds : list delivery) :
  timeouts_step r t = (r', ds) -> Permutation (res_serials r) (res_serials r' ++ ds_serials ds).
Proof.
  intros HT. unfold timeouts_step in HT.
  destruct (done r); [injection HT as <- <-; rewrite app_nil_r; reflexivity |].
  unfold x_removeExpired in HT.
  set (f := x_expired (xchgs r) t) in HT.
  set (r1 := set_xchgs r (mkXchgMgr (x_timeout (xchgs r))
                            (filter (fun e => negb (f e)) (x_entries (xchgs r))))) in HT.
  assert (Hq : xchgQueue (fst (fail_expired r1 (map xe_req (filter f (x_entries (xchgs r)))))) =
               xchgQueue r1)
    by apply fail_expired_queue.
  destruct (fail_expired_spec r1 (map xe_req (filter f (x_entries (xchgs r))))) as (H1 & H2 & _).
  rewrite HT in H1, H2, Hq. simpl in H1, H2, Hq. subst ds.
  unfold res_serials, reqs_of_resolver. rewrite Hq, H2. simpl.
  rewrite ds_serials_errNoResponse, !map_app, <- app_assoc. apply Permutation_app_head.
  rewrite !map_map. apply filter_partition_perm.
Qed.

Lemma tcpExchange_serials (r r' : resolver) (req : request) (out : option dnsMsg)
    (ds : list delivery) :
  tcpExchange r req out = (r', ds) -> res_serials r' = res_serials r /\ ds_serials ds = [rq_serial req].
Proof. destruct out; intros H; injection H as <- <-; auto. Qed.

Lemma Stop_perm (p p' : Resolvers) (ds : list delivery) :
  Stop p = (p', ds) ->
  queue p' = queue p /\
  Permutation (flat_map res_serials (pool p)) (flat_map res_serials (pool p') ++ ds_serials ds).
Proof.
  unfold Stop. destruct (rdone p);
    [intros H; injection H as <- <-; rewrite app_nil_r; split; reflexivity |].
  rewrite stop_all_spec. intros H; injection H as <- <-. simpl. split; [reflexivity |].
  induction (pool p) as [| r l IH]; simpl; [reflexivity |].
  unfold ds_serials in *. rewrite map_app.
  destruct (resolver_stop r) as [r1 ds1] eqn:E.
  destruct (resolver_stop_spec r) as [E' _]. rewrite E in E'. injection E' as <-. simpl.
  apply resolver_stop_perm in E.
  rewrite <- !app_assoc. eapply Permutation_trans; [apply Permutation_app; [exact E | exact IH] |].
  rewrite <- !app_assoc. apply Permutation_app_head.
  rewrite !app_assoc. apply Permutation_app_tail. apply Permutation_app_comm.
Qed.

Lemma add_each_serials (env : net_env) (p : Resolvers) (q : Z) (addrs : list string) (t : Z) :
  queue (add_each env p q addrs t) = queue p /\
  flat_map res_serials (pool (add_each env p q addrs t)) = flat_map res_serials (pool p).
Proof.
  revert p. induction addrs as [| a addrs IH]; intros p; simpl; [auto |].
  destruct (existsb (String.eqb a) (rmap p)); [apply IH |].
  destruct (initializeResolver env p a q t) as [res |] eqn:Hi; [| apply IH].
  destruct (IH (mkResolvers (rdone p) (pool p ++ [res]) (pool_closed p) (rmap p ++ [a])
                  (queue p) (if maxSet p then rqps p else int_wrap (rqps p + q)) (maxSet p) (timeout p)))
    as [H1 H2].
  rewrite H1, H2. simpl. split; [reflexivity |].
  rewrite flat_map_app. simpl. unfold initializeResolver in Hi.
  destruct (dial_ok env _); [| discriminate]. injection Hi as <-. simpl.
  rewrite !app_nil_r. reflexivity.
Qed.

Lemma flat_map_set_nth {A B : Type} (f : A -> list B) (l : list A) (i : nat) (x y : A) :
  nth_error l i = Some x ->
  Permutation (flat_map f l ++ f y) (flat_map f (set_nth l i y) ++ f x).
Proof.
  revert i. induction l as [| a l IH]; intros i Hn; [destruct i; discriminate |].
  destruct i as [| i]; simpl in *.
  - injection Hn as ->. rewrite <- !app_assoc.
    eapply Permutation_trans; [apply Permutation_app_comm |]. rewrite <- app_assoc.
    apply Permutation_app_swap_app.
  - rewrite <- !app_assoc. apply Permutation_app_head. apply IH. exact Hn.
Qed.

Lemma map_remove_nth {A B : Type} (g : A -> B) (l : list A) (i : nat) (x : A) :
  nth_error l i = Some x -> Permutation (map g l) (g x :: map g (remove_nth l i)).
Proof.
  unfold remove_nth. revert i. induction l as [| a l IH]; intros i Hn; [destruct i; discriminate |].
  destruct i as [| i]; simpl in *.
  - injection Hn as ->. reflexivity.
  - rewrite (IH i Hn). apply perm_swap.
Qed.

Definition tcp_serials (w : World) : list nat :=
  map (fun t => rq_serial (snd (fst t))) (tcp_tasks w).

Definition log_serials (w : World) : list nat := map (fun td => dv_serial (snd td)) (log w).

(** The serials of the requests a run holds, followed by those of the
    results it has sent. *)
Definition held_and_sent (w : World) : list nat :=
  map rq_serial (queue (P w)) ++ flat_map res_serials (pool (P w)) ++ tcp_serials w
  ++ log_serials w.

Definition Owned (w : World) : Prop :=
  NoDup (held_and_sent w) /\ Forall (fun k => (k < serial w)%nat) (held_and_sent w).

Lemma log_serials_emit (w : World) (ds : list delivery) :
  map (fun td => dv_serial (snd td)) (emit w ds) =
  map (fun td => dv_serial (snd td)) (log w) ++ ds_serials ds.
Proof. unfold emit, log_serials, ds_serials. rewrite map_app, map_map. reflexivity. Qed.

Lemma Query_cases (p p' : Resolvers) (b : bool) (c : nat) (msg : option dnsMsg) (ch s : nat)
    (ds : list delivery) :
  Query p b c msg ch s = Ran p' ds ->
  (p' = p /\ ds_serials ds = [s]) \/
  (exists req, p' = set_queue p (queue p ++ [req]) /\ rq_serial req = s /\ ds = []).
Proof.
  unfold Query. destruct msg as [m |]; [| intros H; injection H as <- <-; left; auto].
  destruct (b || rdone p); [intros H; injection H as <- <-; left; auto |].
  destruct (Question m) as [| q qs]; [discriminate |].
  intros H; injection H as <- <-. right. eexists. split; [reflexivity | auto].
Qed.

Ltac count_solve :=
  apply (Permutation_count_occ Nat.eq_dec); intros x;
  repeat match goal with
    | H : Permutation _ _ |- _ =>
        pose proof (proj1 (Permutation_count_occ Nat.eq_dec _ _) H x); clear H
    end;
  repeat rewrite count_occ_app in *; simpl count_occ in *;
  repeat match goal with
    | |- context [Nat.eq_dec ?a ?b] => destruct (Nat.eq_dec a b)
    | H : context [Nat.eq_dec ?a ?b] |- _ => destruct (Nat.eq_dec a b)
    end;
  lia.

Ltac world_simpl :=
  unfold held_and_sent, tcp_serials, log_serials;
  cbn [P queue pool tcp_tasks log serial set_queue set_pool with_pool_at];
  rewrite ?log_serials_emit, ?app_nil_r.

Lemma step_held_and_sent (w w' : World) :
  step w w' ->
  (Permutation (held_and_sent w) (held_and_sent w') /\ serial w' = serial w) \/
  (Permutation (held_and_sent w ++ [serial w]) (held_and_sent w') /\ serial w' = S (serial w)).
Proof.
  intros HS.
  destruct HS as [c msg ch p' ds HQ | Ha' Hd' | req rest Ha' Hq Hp | req rest i res res' ds Ha' Hq Hc Hn HR
                 | i res write_ok res' ds Hd' Hn Hdr Hnx Hne HW | i res read res' ds spawn Hn HR
                 | k i req t0 res out res' ds Hk Ht0 Hn HT | i res res' ds Hn HT
                 | p' ds HS | env q addrs p' err HA | c | d Hd0].
  - right. split; [| reflexivity]. world_simpl.
    destruct (Query_cases _ _ _ _ _ _ _ _ HQ) as [[-> Hds] | (req & -> & Hs & ->)].
    + rewrite Hds. count_solve.
    + cbn [queue pool set_queue]. rewrite map_app. simpl map. rewrite Hs. count_solve.
  - left. split; reflexivity.
  - left. split; [| reflexivity]. world_simpl. rewrite Hq. simpl map. count_solve.
  - left. split; [| reflexivity]. world_simpl. rewrite Hq.
    apply resolver_query_perm in HR.
    pose proof (flat_map_set_nth res_serials _ _ _ res' Hn). simpl map. count_solve.
  - left. split; [| reflexivity]. world_simpl.
    apply writeNextMsg_perm in HW.
    pose proof (flat_map_set_nth res_serials _ _ _ res' Hn). count_solve.
  - left. split; [| reflexivity]. world_simpl.
    apply responses_step_perm in HR. rewrite map_app.
    pose proof (flat_map_set_nth res_serials _ _ _ res' Hn).
    destruct spawn; simpl map in *; count_solve.
  - left. split; [| reflexivity]. world_simpl.
    apply tcpExchange_serials in HT as [H1 H2]. rewrite H2.
    pose proof (flat_map_set_nth res_serials _ _ _ res' Hn). rewrite H1 in H.
    pose proof (map_remove_nth (fun t => rq_serial (snd (fst t))) _ _ _ Hk). simpl in H0.
    count_solve.
  - left. split; [| reflexivity]. world_simpl.
    apply timeouts_step_perm in HT.
    pose proof (flat_map_set_nth res_serials _ _ _ res' Hn). count_solve.
  - left. split; [| reflexivity]. world_simpl.
    apply Stop_perm in HS as [H1 H2]. rewrite H1. count_solve.
  - left. split; [| reflexivity]. world_simpl.
    unfold AddResolvers in HA. destruct (Z.eqb q 0); injection HA as <- _; [reflexivity |].
    destruct (add_each_serials env (P w) q addrs (now w)) as [H1 H2]. rewrite H1, H2. reflexivity.
  - left. split; reflexivity.
  - left. split; reflexivity.
Qed.

Lemma NoDup_snoc {A : Type} (l : list A) (s : A) :
  NoDup l -> ~ In s l -> NoDup (l ++ [s]).
Proof.
  intros Hl Hs. apply Permutation_NoDup with (s :: l).
  - apply Permutation_cons_append.
  - constructor; assumption.
Qed.

Lemma step_Owned (w w' : World) : Owned w -> step w w' -> Owned w'.
Proof.
  intros [Hnd Hlt] HS.
  destruct (step_held_and_sent w w' HS) as [[Hp Hs] | [Hp Hs]].
  - split.
    + exact (Permutation_NoDup Hp Hnd).
    + rewrite Hs. apply Forall_forall. intros k Hk.
      apply (Permutation_in _ (Permutation_sym Hp)) in Hk.
      rewrite Forall_forall in Hlt. exact (Hlt k Hk).
  - rewrite Forall_forall in Hlt. split.
    + apply (Permutation_NoDup Hp). apply NoDup_snoc; [exact Hnd |].
      intros Hin. specialize (Hlt _ Hin). lia.
    + rewrite Hs. apply Forall_forall. intros k Hk.
      apply (Permutation_in _ (Permutation_sym Hp)) in Hk.
      apply in_app_or in Hk as [Hk | [<- | []]]; [specialize (Hlt k Hk) |]; lia.
Qed.

Lemma steps_Owned (w w' : World) : Owned w -> steps w w' -> Owned w'.
Proof.
  intros Hw Hs. induction Hs as [w | w1 w2 w3 H12 _ IH]; [exact Hw |].
  apply IH. exact (step_Owned w1 w2 Hw H12).
Qed.

Lemma deliveries_of_count (n : nat) (w : World) :
  deliveries_of n w = count_occ Nat.eq_dec (log_serials w) n.
Proof.
  unfold deliveries_of, log_serials. induction (log w) as [| [t d] l IH]; [reflexivity |].
  simpl. destruct (Nat.eq_dec (dv_serial d) n) as [E | E].
  - rewrite E, Nat.eqb_refl. simpl. rewrite IH. reflexivity.
  - apply Nat.eqb_neq in E. rewrite E. exact IH.
Qed.

Lemma Owned_at_most_once (w : World) (n : nat) : Owned w -> (deliveries_of n w <= 1)%nat.
Proof.
  intros [Hnd _]. unfold held_and_sent in Hnd.
  apply NoDup_app_remove_l, NoDup_app_remove_l, NoDup_app_remove_l in Hnd.
  rewrite deliveries_of_count. exact (proj1 (NoDup_count_occ Nat.eq_dec _) Hnd n).
Qed.

(** A run from the one-endpoint pool never sends two results for the same
    query: every query is delivered to at most once, whatever the
    interleaving of callers, admission, sends, receives, TCP retries,
    sweeps, stops, additions, cancellations and time. *)
Lemma delivered_at_most_once (w : World) (n : nat) :
  steps world_one w -> (deliveries_of n w <= 1)%nat.
Proof.
  intros Hs. apply Owned_at_most_once, (steps_Owned world_one); [| exact Hs].
  split; vm_compute; constructor.
Qed.

(** ** Requests settled for good

    A pool made by [NewResolvers] and the runs from it. *)

Definition start (dt : Z) : World := mkWorld (NewResolvers dt) [] 0 [] O true [].

Lemma start_Owned (dt : Z) : Owned (start dt).
Proof. split; cbn; constructor. Qed.

Lemma step_log_prefix (w w' : World) : step w w' -> exists suf, log w' = log w ++ suf.
Proof.
  intros HS. destruct HS; cbn [log with_pool_at]; unfold emit;
    first [eexists; reflexivity | exists []; rewrite app_nil_r; reflexivity].
Qed.

Lemma step_count (n : nat) (w w' : World) :
  (n < serial w)%nat -> step w w' ->
  count_occ Nat.eq_dec (held_and_sent w') n = count_occ Nat.eq_dec (held_and_sent w) n /\
  (n < serial w')%nat.
Proof.
  intros Hn HS. destruct (step_held_and_sent w w' HS) as [[Hp Hs] | [Hp Hs]].
  - split; [symmetry; exact (proj1 (Permutation_count_occ Nat.eq_dec _ _) Hp n) | lia].
  - split; [| lia]. rewrite <- (proj1 (Permutation_count_occ Nat.eq_dec _ _) Hp n).
    rewrite count_occ_app. simpl. destruct (Nat.eq_dec (serial w) n); lia.
Qed.

Lemma steps_count (n : nat) (w w' : World) :
  (n < serial w)%nat -> steps w w' ->
  count_occ Nat.eq_dec (held_and_sent w') n = count_occ Nat.eq_dec (held_and_sent w) n /\
  (n < serial w')%nat /\ exists suf, log w' = log w ++ suf.
Proof.
  intros Hn HS. revert Hn. induction HS as [w | w1 w2 w3 H12 _ IH]; intros Hn.
  - split; [reflexivity | split; [exact Hn | exists []; rewrite app_nil_r; reflexivity]].
  - destruct (step_count n w1 w2 Hn H12) as [C1 N1].
    destruct (IH N1) as (C2 & N2 & suf2 & L2).
    destruct (step_log_prefix _ _ H12) as [suf1 L1].
    split; [congruence |]. split; [exact N2 |].
    exists (suf1 ++ suf2). rewrite L2, L1, app_assoc. reflexivity.
Qed.

Lemma held_count (w : World) (n : nat) :
  count_occ Nat.eq_dec (held_and_sent w) n =
  (count_occ Nat.eq_dec (map rq_serial (queue (P w))) n +
   count_occ Nat.eq_dec (flat_map res_serials (pool (P w))) n +
   count_occ Nat.eq_dec (tcp_serials w) n + count_occ Nat.eq_dec (log_serials w) n)%nat.
Proof. unfold held_and_sent. rewrite !count_occ_app. lia. Qed.

Lemma count_occ_map_zero {A : Type} (f : A -> nat) (l : list A) (n : nat) :
  count_occ Nat.eq_dec (map f l) n = 0%nat <-> Forall (fun a => f a <> n) l.
Proof.
  induction l as [| a l IH]; simpl.
  - split; [intros _; constructor | reflexivity].
  - destruct (Nat.eq_dec (f a) n) as [E | E]; split; intros H.
    + discriminate.
    + inversion H as [| ? ? H1 _]. contradiction.
    + constructor; [exact E | apply IH; exact H].
    + inversion H as [| ? ? _ H2]. apply IH. exact H2.
Qed.

Lemma pool_count_zero (n : nat) (l : list resolver) :
  count_occ Nat.eq_dec (flat_map res_serials l) n = 0%nat <-> Forall (FreeR n) l.
Proof.
  induction l as [| a l IH]; cbn [flat_map]; [split; [intros _; constructor | reflexivity] |].
  rewrite count_occ_app, res_serials_eq, count_occ_app. split.
  - intros H. constructor; [split | apply IH; lia].
    + apply (proj1 (count_occ_map_zero rq_serial _ n)); lia.
    + apply (proj1 (count_occ_map_zero (fun e => rq_serial (xe_req e)) _ n)); lia.
  - intros H. inversion H as [| ? ? [H1 H2] H3]. subst.
    pose proof (proj2 (count_occ_map_zero rq_serial _ n) H1).
    pose proof (proj2 (count_occ_map_zero (fun e => rq_serial (xe_req e)) _ n) H2).
    pose proof (proj2 IH H3). lia.
Qed.

Lemma Owned_count_one (w : World) (n : nat) :
  Owned w -> In n (held_and_sent w) -> count_occ Nat.eq_dec (held_and_sent w) n = 1%nat.
Proof.
  intros [Hnd _] Hin. apply (count_occ_In Nat.eq_dec) in Hin.
  pose proof (proj1 (NoDup_count_occ Nat.eq_dec _) Hnd n). lia.
Qed.

Lemma Owned_lt (w : World) (n : nat) : Owned w -> In n (held_and_sent w) -> (n < serial w)%nat.
Proof. intros [_ Hf] Hin. rewrite Forall_forall in Hf. exact (Hf n Hin). Qed.

Lemma held_in_table (w : World) (i : nat) (res : resolver) (e : xentry) :
  nth_error (pool (P w)) i = Some res -> In e (x_entries (xchgs res)) ->
  In (rq_serial (xe_req e)) (held_and_sent w).
Proof.
  intros Hn He. unfold held_and_sent. apply in_or_app. right. apply in_or_app. left.
  apply in_flat_map. exists res. split; [exact (nth_error_In _ _ Hn) |].
  rewrite res_serials_eq. apply in_or_app. right.
  apply (in_map (fun e => rq_serial (xe_req e))). exact He.
Qed.

Lemma resolver_query_free (n : nat) (r r' : resolver) (req : request) (ds : list delivery) :
  FreeR n r -> free_req n req -> resolver_query r req = (r', ds) ->
  FreeR n r' /\ Forall (free_dv n) ds.
Proof.
  intros [Hq Hx] Hr. unfold resolver_query. destruct (done r); intros H; injection H as <- <-.
  - split; [split; assumption | constructor; [exact Hr | constructor]].
  - split; [| constructor]. split; [| exact Hx].
    apply Forall_app. split; [exact Hq | constructor; [exact Hr | constructor]].
Qed.

Lemma writeNextMsg_free (n : nat) (r r' : resolver) (cd : nat -> bool) (wok : bool) (t : Z)
    (ds : list delivery) :
  FreeR n r -> writeNextMsg r cd wok t = (r', ds) -> FreeR n r' /\ Forall (free_dv n) ds.
Proof.
  intros [Hq Hx]. unfold writeNextMsg.
  destruct (done r); [intros H; injection H as <- <-; split; [split; assumption | constructor] |].
  destruct (xchgQueue r) as [| req rest] eqn:E;
    [intros H; injection H as <- <-; split; [split; [rewrite E; constructor | exact Hx] | constructor] |].
  inversion Hq as [| ? ? Hreq Hrest]. subst.
  destruct (cd (Ctx req));
    [intros H; injection H as <- <-; split; [split; assumption | constructor; [exact Hreq | constructor]] |].
  destruct (if wok then x_add (xchgs (write_conn (set_xchgQueue r rest) (Msg req))) req
            else None) as [x |] eqn:Ha.
  - intros H; injection H as <- <-. split; [| constructor]. split; [exact Hrest |].
    assert (HX : Forall (fun e => free_req n (xe_req e)) (x_entries x)).
    { destruct wok; [| discriminate]. unfold x_add in Ha. simpl in Ha.
      destruct (x_has (xchgs r) _); [discriminate |]. injection Ha as <-. simpl.
      apply Forall_app. split; [exact Hx | constructor; [exact Hreq | constructor]]. }
    cbn [xchgs set_next set_xchgs]. unfold x_updateTimestamp. cbn [x_entries].
    apply Forall_map. eapply Forall_impl; [| exact HX]. intros e0 H0.
    destruct (xkey_eqb _ _); exact H0.
  - intros H; injection H as <- <-.
    split; [split; [exact Hrest | exact Hx] | constructor; [exact Hreq | constructor]].
Qed.

Lemma resolver_stop_free (n : nat) (r : resolver) :
  FreeR n r -> FreeR n (fst (resolver_stop r)) /\ Forall (free_dv n) (snd (resolver_stop r)).
Proof.
  intros [Hq Hx]. unfold resolver_stop, x_removeAll. destruct (done r); simpl.
  - split; [split; assumption | constructor].
  - split; [split; constructor |]. apply Forall_app. split.
    + apply Forall_map. exact Hq.
    + rewrite map_map. apply Forall_map. exact Hx.
Qed.

Lemma Stop_free (n : nat) (p p' : Resolvers) (ds : list delivery) :
  Forall (FreeR n) (pool p) -> Stop p = (p', ds) ->
  queue p' = queue p /\ Forall (FreeR n) (pool p') /\ Forall (free_dv n) ds.
Proof.
  unfold Stop. intros Hp. destruct (rdone p); [intros H; injection H as <- <-; auto |].
  rewrite stop_all_spec. intros H; injection H as <- <-. simpl. split; [reflexivity |].
  induction (pool p) as [| r l IH]; simpl; [split; constructor |].
  inversion Hp as [| ? ? Hr Hl]. subst. destruct (IH Hl) as [I1 I2].
  destruct (resolver_stop_free n r Hr) as [F1 F2].
  rewrite (proj1 (resolver_stop_spec r)) in F2. simpl in F2.
  split; [constructor; assumption | apply Forall_app; split; assumption].
Qed.

Lemma Forall_emit_gen (Q : delivery -> Prop) (w : World) (ds : list delivery) :
  Forall (fun td => Q (snd td)) (log w) -> Forall Q ds ->
  Forall (fun td => Q (snd td)) (emit w ds).
Proof.
  intros H1 H2. unfold emit. apply Forall_app. split; [exact H1 |].
  apply Forall_map. exact H2.
Qed.

Lemma ds_single_free (n s : nat) (ds : list delivery) :
  ds_serials ds = [s] -> s <> n -> Forall (free_dv n) ds.
Proof.
  intros H Hs. destruct ds as [| d [| d' ds]]; try discriminate.
  injection H as E. constructor; [unfold free_dv; congruence | constructor].
Qed.

(** What [tcpExchange] sends for [req]: the TCP answer or no-response. *)
Definition tcp_result (req : request) (d : delivery) : Prop :=
  exists out, d = match out with Some m' => deliver req m' | None => errNoResponse req end.

Section Retry.

Variable n : nat.
Variable rq : request.

(** The request with serial [n] is [rq], held by [tcpExchange] tasks only,
    and every result sent for it is one of those of [tcpExchange]. *)
Definition RetryInv (w : World) : Prop :=
  (n < serial w)%nat /\ Forall (free_req n) (queue (P w)) /\ Forall (FreeR n) (pool (P w)) /\
  Forall (fun t => rq_serial (snd (fst t)) = n -> snd (fst t) = rq) (tcp_tasks w) /\
  Forall (fun td => dv_serial (snd td) = n -> tcp_result rq (snd td)) (log w).

Lemma free_log_ok (ds : list delivery) :
  Forall (free_dv n) ds -> Forall (fun d => dv_serial d = n -> tcp_result rq d) ds.
Proof. intros H. eapply Forall_impl; [| exact H]. intros d Hd E. contradiction. Qed.

Lemma RetryInv_step (w w' : World) : RetryInv w -> step w w' -> RetryInv w'.
Proof.
  intros (Hs & Hq & Hp & Ht & Hl) HS.
  destruct HS as [c msg ch p' ds HQ | Ha' Hd' | req rest Ha' Hq' Hp' | req rest i res res' ds Ha' Hq' Hc Hn HR
                 | i res write_ok res' ds Hd' Hn Hdr Hnx Hne HW | i res read res' ds spawn Hn HR
                 | k i req t0 res out res' ds Hk Ht0 Hn HT | i res res' ds Hn HT
                 | p' ds HS | env q addrs p' err HA | c | d Hd0];
    unfold RetryInv; cbn [P queue pool tcp_tasks log serial set_queue set_pool with_pool_at].
  - destruct (Query_cases _ _ _ _ _ _ _ _ HQ) as [[-> Hds] | (req & -> & Hsr & ->)].
    + split; [lia |]. split; [exact Hq |]. split; [exact Hp |]. split; [exact Ht |].
      apply (Forall_emit_gen (fun d => dv_serial d = n -> tcp_result rq d)); [exact Hl |]. apply free_log_ok.
      apply (ds_single_free n (serial w) ds Hds). lia.
    + cbn [queue pool set_queue]. split; [lia |].
      split; [apply Forall_app; split; [exact Hq | constructor; [unfold free_req; lia | constructor]] |].
      split; [exact Hp |]. split; [exact Ht |].
      apply (Forall_emit_gen (fun d => dv_serial d = n -> tcp_result rq d)); [exact Hl | constructor].
  - auto.
  - rewrite Hq' in Hq. inversion Hq as [| ? ? Hreq Hrest]. subst.
    split; [exact Hs |]. split; [exact Hrest |]. split; [exact Hp |]. split; [exact Ht |].
    apply (Forall_emit_gen (fun d => dv_serial d = n -> tcp_result rq d)); [exact Hl |]. apply free_log_ok. constructor; [exact Hreq | constructor].
  - rewrite Hq' in Hq. inversion Hq as [| ? ? Hreq Hrest]. subst.
    destruct (resolver_query_free n _ _ _ _ (Forall_nth_error _ _ _ _ Hp Hn) Hreq HR) as [F1 F2].
    split; [exact Hs |]. split; [exact Hrest |]. split; [apply Forall_set_nth; assumption |].
    split; [exact Ht |]. apply (Forall_emit_gen (fun d => dv_serial d = n -> tcp_result rq d)); [exact Hl | apply free_log_ok; exact F2].
  - destruct (writeNextMsg_free n _ _ _ _ _ _ (Forall_nth_error _ _ _ _ Hp Hn) HW) as [F1 F2].
    split; [exact Hs |]. split; [exact Hq |]. split; [apply Forall_set_nth; assumption |].
    split; [rewrite app_nil_r; exact Ht |].
    apply (Forall_emit_gen (fun d => dv_serial d = n -> tcp_result rq d)); [exact Hl | apply free_log_ok; exact F2].
  - destruct (responses_step_free n _ _ _ _ _ (Forall_nth_error _ _ _ _ Hp Hn) HR) as (F1 & F2 & F3).
    split; [exact Hs |]. split; [exact Hq |]. split; [apply Forall_set_nth; assumption |].
    split.
    + apply Forall_app. split; [exact Ht |].
      destruct spawn as [sq |]; [| constructor].
      constructor; [| constructor]. intros E. exfalso. exact (F3 sq eq_refl E).
    + apply (Forall_emit_gen (fun d => dv_serial d = n -> tcp_result rq d)); [exact Hl | apply free_log_ok; exact F2].
  - assert (Hr := Forall_nth_error _ _ _ _ Hp Hn).
    assert (Hreq := Forall_nth_error _ _ _ _ Ht Hk). cbn beta in Hreq. simpl in Hreq.
    split; [exact Hs |]. split; [exact Hq |].
    destruct out as [m' |]; injection HT as <- <-.
    + split; [apply Forall_set_nth; [exact Hp | exact (FreeR_collectStats n _ m' Hr)] |].
      split; [apply Forall_remove_nth; exact Ht |].
      apply (Forall_emit_gen (fun d => dv_serial d = n -> tcp_result rq d)); [exact Hl |]. constructor; [| constructor].
      intros E. rewrite (Hreq E). exists (Some m'). reflexivity.
    + split; [apply Forall_set_nth; assumption |].
      split; [apply Forall_remove_nth; exact Ht |].
      apply (Forall_emit_gen (fun d => dv_serial d = n -> tcp_result rq d)); [exact Hl |]. constructor; [| constructor].
      intros E. rewrite (Hreq E). exists None. reflexivity.
  - destruct (timeouts_step_free n _ _ _ _ (Forall_nth_error _ _ _ _ Hp Hn) HT) as [F1 F2].
    split; [exact Hs |]. split; [exact Hq |]. split; [apply Forall_set_nth; assumption |].
    split; [rewrite app_nil_r; exact Ht |].
    apply (Forall_emit_gen (fun d => dv_serial d = n -> tcp_result rq d)); [exact Hl | apply free_log_ok; exact F2].
  - destruct (Stop_free n _ _ _ Hp HS) as (F0 & F1 & F2). rewrite F0.
    split; [exact Hs |]. split; [exact Hq |]. split; [exact F1 |]. split; [exact Ht |].
    apply (Forall_emit_gen (fun d => dv_serial d = n -> tcp_result rq d)); [exact Hl | apply free_log_ok; exact F2].
  - unfold AddResolvers in HA. destruct (Z.eqb q 0); injection HA as <- _; [auto |].
    destruct (add_each_free n env (P w) q addrs (now w) Hp) as (_ & H2 & H3).
    rewrite H2. auto.
  - auto.
  - auto.
Qed.

Lemma RetryInv_steps (w w' : World) : RetryInv w -> steps w w' -> RetryInv w'.
Proof. intros H HS. induction HS; eauto using RetryInv_step. Qed.

End Retry.

(** C4: in a run from a pool made by [NewResolvers], a receive step of a
    running endpoint on a message with a question looks the table up by
    (id, question name).  Without a match the message is dropped and
    nothing changes.  On a match the entry is taken out of the table; a
    message that is not truncated is sent to the request and counted in
    the statistics.  A truncated one sends nothing and spawns exactly one
    [tcpExchange] task for the request, which sends the TCP answer
    (counted) or no-response on failure; from then on, in every
    continuation of the run, the request is held by no queue and no
    table, the tasks and results for it number exactly one in total (so
    no second retry and no second result), and every result sent for it
    is one that [tcpExchange] sends for it. *)
Theorem truncated_retry_only_result (dt : Z) (w0 : World) (i : nat) (res : resolver)
    (m : dnsMsg) (q : dnsQuestion) (qs : list dnsQuestion) :
  steps (start dt) w0 -> nth_error (pool (P w0)) i = Some res -> done res = false ->
  Question m = q :: qs ->
  (forall x', x_remove (xchgs res) (Id m) (Name q) = (None, x') ->
     responses_step res (Some m) = (res, [], None)) /\
  (forall req x', x_remove (xchgs res) (Id m) (Name q) = (Some req, x') ->
     (exists pre e post,
        x_entries (xchgs res) = pre ++ e :: post /\ x_entries x' = pre ++ post /\
        x_timeout x' = x_timeout (xchgs res) /\
        xe_req e = req /\ xkey_eqb (xe_key e) (mk_xkey (Id m) (Name q)) = true) /\
     (Truncated m = false ->
        responses_step res (Some m) = (collectStats (set_xchgs res x') m, [deliver req m], None)) /\
     (Truncated m = true ->
        responses_step res (Some m) = (set_xchgs res x', [], Some req) /\
        step w0 (with_pool_at w0 i (set_xchgs res x') [] [(i, req, now w0)]) /\
        (forall r out,
           tcpExchange r req out =
           (match out with Some m' => collectStats r m' | None => r end,
            [match out with Some m' => deliver req m' | None => errNoResponse req end])) /\
        forall w, steps (with_pool_at w0 i (set_xchgs res x') [] [(i, req, now w0)]) w ->
          count_occ Nat.eq_dec (tcp_serials w ++ log_serials w) (rq_serial req) = 1%nat /\
          Forall (free_req (rq_serial req)) (queue (P w)) /\
          Forall (FreeR (rq_serial req)) (pool (P w)) /\
          Forall (fun t => rq_serial (snd (fst t)) = rq_serial req -> snd (fst t) = req)
            (tcp_tasks w) /\
          Forall (fun td => dv_serial (snd td) = rq_serial req -> tcp_result req (snd td))
            (log w))).
Proof.
  intros Hs Hn Hd Hq.
  destruct (responses_step_spec res m q qs Hd Hq) as [Hmatch Hnone].
  split; [exact Hnone |].
  intros req x' Hr. destruct (Hmatch req x' Hr) as (Hshape & Htr & Hnt).
  split; [exact Hshape |]. split; [exact Hnt |].
  intros Ht. destruct (Htr Ht) as [Hresp Htcp].
  set (w1 := with_pool_at w0 i (set_xchgs res x') [] [(i, req, now w0)]).
  assert (HS1 : step w0 w1)
    by exact (st_recv w0 i res (Some m) (set_xchgs res x') [] (Some req) Hn Hresp).
  split; [exact Hresp |]. split; [exact HS1 |]. split; [exact Htcp |].
  intros w Hw.
  pose proof (steps_Owned _ _ (start_Owned dt) Hs) as HO.
  destruct Hshape as (pre & e & post & Hl & _ & _ & He & _).
  assert (Hin : In (rq_serial req) (held_and_sent w0)).
  { rewrite <- He. apply (held_in_table w0 i res e Hn). rewrite Hl.
    apply in_or_app. right. left. reflexivity. }
  set (n := rq_serial req) in *.
  pose proof (Owned_count_one w0 n HO Hin) as C0.
  pose proof (Owned_lt w0 n HO Hin) as N0.
  destruct (step_count n _ _ N0 HS1) as [C1 N1].
  pose proof (held_count w1 n) as Hc1. rewrite C1, C0 in Hc1.
  assert (T1 : count_occ Nat.eq_dec (tcp_serials w1) n =
               S (count_occ Nat.eq_dec (tcp_serials w0) n)).
  { unfold tcp_serials. cbn [w1 with_pool_at tcp_tasks]. rewrite map_app, count_occ_app.
    simpl. destruct (Nat.eq_dec (rq_serial req) n) as [_ | E]; [lia | exfalso; exact (E eq_refl)]. }
  assert (I1 : RetryInv n req w1).
  { split; [exact N1 |].
    split; [apply (proj1 (count_occ_map_zero rq_serial _ n)); lia |].
    split; [apply (proj1 (pool_count_zero n _)); lia |].
    split.
    - assert (T0 : count_occ Nat.eq_dec (tcp_serials w0) n = 0%nat).
      { pose proof (held_count w1 n). lia. }
      apply (count_occ_map_zero (fun t => rq_serial (snd (fst t)))) in T0.
      cbn [w1 with_pool_at tcp_tasks]. apply Forall_app. split.
      + eapply Forall_impl; [| exact T0]. intros t Hne E. contradiction.
      + constructor; [intros _; reflexivity | constructor].
    - assert (L0 : count_occ Nat.eq_dec (log_serials w1) n = 0%nat) by lia.
      apply (count_occ_map_zero (fun td => dv_serial (snd td))) in L0.
      eapply Forall_impl; [| exact L0]. intros td Hne E. contradiction. }
  destruct (RetryInv_steps n req w1 w I1 Hw) as (N & Fq & Fp & Ft & Fl).
  destruct (steps_count n w1 w N1 Hw) as (C2 & _ & _).
  pose proof (held_count w n) as Hc. rewrite C2, C1, C0 in Hc.
  pose proof (proj2 (count_occ_map_zero rq_serial _ n) Fq).
  pose proof (proj2 (pool_count_zero n _) Fp).
  split; [rewrite count_occ_app; lia |].
  split; [exact Fq |]. split; [exact Fp |]. split; [exact Ft | exact Fl].
Qed.

(** C6 as the code has it, in a run from a pool made by [NewResolvers]:
    the sweep ticks every 100ms; a tick at any time [now] on a running
    endpoint fails with no-response exactly the entries whose deadline is
    before [now], in table order, and the table keeps exactly the others.
    An entry still in the table is failed if the tick comes at the first
    tick after its deadline, at most one interval later.  Once an entry
    is failed by a tick, in every continuation of the run its request has
    received exactly that one result, is held by no queue, table or TCP
    task, and no later received message (whatever it is, on whichever
    endpoint) sends a result for it or hands it to a TCP retry. *)
Theorem timeouts_sweep_settles (dt : Z) (w0 : World) (i : nat) (res res' : resolver)
    (ds : list delivery) :
  steps (start dt) w0 -> nth_error (pool (P w0)) i = Some res -> done res = false ->
  timeouts_step res (now w0) = (res', ds) ->
  sweep_interval = 100 * Millisecond /\
  step w0 (with_pool_at w0 i res' ds []) /\
  ds = map (fun e => errNoResponse (xe_req e))
         (filter (x_expired (xchgs res) (now w0)) (x_entries (xchgs res))) /\
  x_entries (xchgs res') =
    filter (fun e => negb (x_expired (xchgs res) (now w0) e)) (x_entries (xchgs res)) /\
  (forall e t0, In e (x_entries (xchgs res)) -> now w0 = first_tick_after t0 (xe_deadline e) ->
     xe_deadline e < now w0 <= xe_deadline e + sweep_interval /\
     In (errNoResponse (xe_req e)) ds) /\
  (forall e, In e (x_entries (xchgs res)) -> x_expired (xchgs res) (now w0) e = true ->
     forall w, steps (with_pool_at w0 i res' ds []) w ->
       deliveries_of (rq_serial (xe_req e)) w = 1%nat /\
       In (now w0, errNoResponse (xe_req e)) (log w) /\
       Forall (free_req (rq_serial (xe_req e))) (queue (P w)) /\
       Forall (FreeR (rq_serial (xe_req e))) (pool (P w)) /\
       Forall (fun t => free_req (rq_serial (xe_req e)) (snd (fst t))) (tcp_tasks w) /\
       (forall j r read r2 ds2 sp, nth_error (pool (P w)) j = Some r ->
          responses_step r read = (r2, ds2, sp) ->
          Forall (free_dv (rq_serial (xe_req e))) ds2 /\
          (forall q, sp = Some q -> free_req (rq_serial (xe_req e)) q))).
Proof.
  intros Hs Hn Hd HT.
  destruct (timeouts_step_spec _ _ _ _ Hd HT) as (D1 & D2 & _ & _).
  assert (HS1 : step w0 (with_pool_at w0 i res' ds [])) by exact (st_sweep w0 i res res' ds Hn HT).
  split; [reflexivity |]. split; [exact HS1 |]. split; [exact D1 |]. split; [exact D2 |].
  split.
  - intros e t0 He Ht. destruct (first_tick_fails res t0 e He) as [Hb Hx].
    rewrite <- Ht in Hb, Hx. split; [exact Hb |]. rewrite D1.
    apply (in_map (fun e => errNoResponse (xe_req e))). apply filter_In. auto.
  - intros e He Hx w Hw.
    pose proof (steps_Owned _ _ (start_Owned dt) Hs) as HO.
    pose proof (held_in_table w0 i res e Hn He) as Hin.
    set (n := rq_serial (xe_req e)) in *.
    pose proof (Owned_count_one w0 n HO Hin) as C0.
    pose proof (Owned_lt w0 n HO Hin) as N0.
    destruct (step_count n _ _ N0 HS1) as [C1 N1].
    destruct (steps_count n _ _ N1 Hw) as (C2 & _ & suf & L).
    assert (Hlog : In (now w0, errNoResponse (xe_req e)) (log w)).
    { rewrite L. apply in_or_app. left. cbn [with_pool_at log]. unfold emit.
      apply in_or_app. right. rewrite D1, map_map.
      apply (in_map (fun x => (now w0, errNoResponse (xe_req x)))). apply filter_In. auto. }
    assert (Hpos : (count_occ Nat.eq_dec (log_serials w) n > 0)%nat).
    { apply count_occ_In. unfold log_serials.
      exact (in_map (fun td => dv_serial (snd td)) _ _ Hlog). }
    pose proof (held_count w n) as Hc. rewrite C2, C1, C0 in Hc.
    assert (Fp : Forall (FreeR n) (pool (P w))) by (apply (proj1 (pool_count_zero n _)); lia).
    split; [rewrite deliveries_of_count; lia |]. split; [exact Hlog |].
    split; [apply (proj1 (count_occ_map_zero rq_serial _ n)); lia |].
    split; [exact Fp |].
    split; [apply (proj1 (count_occ_map_zero (fun t => rq_serial (snd (fst t))) _ n));
            unfold tcp_serials in Hc; lia |].
    intros j r read r2 ds2 sp Hj HR.
    destruct (responses_step_free n _ _ _ _ _ (Forall_nth_error _ _ _ _ Fp Hj) HR) as (_ & F2 & F3).
    split; [exact F2 | exact F3].
Qed.

(** The pool of [world_one] is the one [AddResolvers] makes on a new pool. *)
Lemma start_to_one : steps (start (500 * Millisecond)) world_one.
Proof.
  eapply steps_cons; [| apply steps_refl].
  apply (st_add (start (500 * Millisecond)) net_ok 10 ["8.8.8.8"%string] pool_one None).
  vm_compute. reflexivity.
Qed.

Lemma run_truncated_reached : steps (start (500 * Millisecond)) run_truncated_sent.
Proof. exact (steps_trans _ _ _ start_to_one run_truncated_prefix). Qed.

(** The truncated answer is received at time 0 and the TCP task spawned. *)
Definition run_truncated_retry : World :=
  with_pool_at run_truncated_sent 0 (set_xchgs res_sent (mkXchgMgr (500 * Millisecond) [])) []
    [(0%nat, req_example, 0)].

Lemma truncated_retry_only_result_witness :
  step run_truncated_sent run_truncated_retry /\
  forall w, steps run_truncated_retry w ->
    count_occ Nat.eq_dec (tcp_serials w ++ log_serials w) 0%nat = 1%nat /\
    Forall (fun td => dv_serial (snd td) = 0%nat -> tcp_result req_example (snd td)) (log w).
Proof.
  destruct (truncated_retry_only_result (500 * Millisecond) run_truncated_sent 0 res_sent
              msg_truncated q_example [] run_truncated_reached eq_refl eq_refl eq_refl) as [_ H].
  destruct (H req_example (mkXchgMgr (500 * Millisecond) [])) as (_ & _ & Ht);
    [vm_compute; reflexivity |].
  destruct (Ht eq_refl) as (_ & Hstep & _ & Hall).
  split; [exact Hstep |].
  intros w Hw. destruct (Hall w Hw) as (C & _ & _ & _ & L). split; [exact C | exact L].
Defined.

(** The request sent at time 0 is still in the table at 600ms. *)
Definition run_late : World := mkWorld (set_pool pool_one [res_sent]) [] (600 * Millisecond) [] 1 true [].

Lemma run_late_reached : steps (start (500 * Millisecond)) run_late.
Proof.
  apply (steps_trans _ _ _ run_truncated_reached).
  eapply steps_cons; [apply (st_time run_truncated_sent (600 * Millisecond)); vm_compute; discriminate |].
  apply steps_refl.
Qed.

Definition run_swept : World :=
  with_pool_at run_late 0 (fst (timeouts_step res_sent (600 * Millisecond)))
    (snd (timeouts_step res_sent (600 * Millisecond))) [].

Lemma timeouts_sweep_settles_witness :
  snd (timeouts_step res_sent (600 * Millisecond)) = [errNoResponse req_example] /\
  forall w, steps run_swept w -> deliveries_of 0 w = 1%nat.
Proof.
  destruct (timeouts_sweep_settles (500 * Millisecond) run_late 0 res_sent
              (fst (timeouts_step res_sent (600 * Millisecond)))
              (snd (timeouts_step res_sent (600 * Millisecond)))
              run_late_reached eq_refl eq_refl ltac:(vm_compute; reflexivity))
    as (_ & _ & D & _ & _ & G).
  split; [rewrite D; vm_compute; reflexivity |].
  intros w Hw. exact (proj1 (G entry_waiting ltac:(vm_compute; left; reflexivity)
                              ltac:(vm_compute; reflexivity) w Hw)).
Defined.

(** ** The aggregate rate: [QPS], [SetMaxQPS], [AddResolvers] and [Stop] *)

(** The summed rates of the endpoints whose [done] is still open. *)
Definition live_qps (l : list resolver) : Z :=
  fold_right (fun r acc => if done r then acc else qps r + acc) 0 l.

Definition dq (r : resolver) : bool * Z := (done r, qps r).

Definition QInv (p : Resolvers) : Prop :=
  (maxSet p = false -> rqps p = int_wrap (live_qps (pool p))) /\
  (rdone p = false -> Forall (fun r => done r = false) (pool p)).

Ltac pair_inv H := injection H as <- <-; reflexivity.

Lemma resolver_query_dq (r r' : resolver) (req : request) (ds : list delivery) :
  resolver_query r req = (r', ds) -> dq r' = dq r.
Proof. unfold resolver_query. destruct (done r); intros H; pair_inv H. Qed.

Lemma writeNextMsg_dq (r r' : resolver) (cd : nat -> bool) (wok : bool) (t : Z)
    (ds : list delivery) :
  writeNextMsg r cd wok t = (r', ds) -> dq r' = dq r.
Proof.
  unfold writeNextMsg. destruct (done r); [intros H; pair_inv H |].
  destruct (xchgQueue r) as [| req rest]; [intros H; pair_inv H |].
  destruct (cd (Ctx req)); [intros H; pair_inv H |].
  destruct wok; [destruct (x_add _ _) |]; intros H; pair_inv H.
Qed.

Lemma responses_step_dq (r r' : resolver) (read : option dnsMsg) (ds : list delivery)
    (sp : option request) :
  responses_step r read = (r', ds, sp) -> dq r' = dq r.
Proof.
  unfold responses_step. destruct (done r); [intros H; injection H as <- _ _; reflexivity |].
  destruct read as [m |]; [| intros H; injection H as <- _ _; reflexivity].
  destruct (Question m) as [| q qs]; [intros H; injection H as <- _ _; reflexivity |].
  destruct (x_remove _ _ _) as [[req |] x'];
    [destruct (Truncated m) |]; intros H; injection H as <- _ _; reflexivity.
Qed.

Lemma tcpExchange_dq (r r' : resolver) (req : request) (out : option dnsMsg) (ds : list delivery) :
  tcpExchange r req out = (r', ds) -> dq r' = dq r.
Proof. unfold tcpExchange. destruct out; intros H; pair_inv H. Qed.

Lemma fail_expired_dq (r r' : resolver) (reqs : list request) (ds : list delivery) :
  fail_expired r reqs = (r', ds) -> dq r' = dq r.
Proof.
  revert r ds. induction reqs as [| req rest IH]; intros r ds; simpl; [intros H; pair_inv H |].
  destruct (fail_expired (collectStats r (set_Rcode (Msg req) RcodeNoResponse)) rest) as [r1 ds1] eqn:E.
  intros H; injection H as <- _. apply IH in E. exact E.
Qed.

Lemma timeouts_step_dq (r r' : resolver) (t : Z) (ds : list delivery) :
  timeouts_step r t = (r', ds) -> dq r' = dq r.
Proof.
  unfold timeouts_step. destruct (done r) eqn:Hd; [intros H; pair_inv H |].
  unfold x_removeExpired. intros H. apply fail_expired_dq in H. rewrite H. reflexivity.
Qed.

Lemma live_qps_set_nth (l : list resolver) (i : nat) (r r' : resolver) :
  nth_error l i = Some r -> dq r' = dq r ->
  live_qps (set_nth l i r') = live_qps l /\
  (Forall (fun x => done x = false) l -> Forall (fun x => done x = false) (set_nth l i r')).
Proof.
  unfold dq. intros Hn E. injection E as Ed Eq.
  revert i Hn. induction l as [| a l IH]; intros i Hn; [destruct i; discriminate |].
  destruct i as [| i]; simpl in *.
  - injection Hn as ->. rewrite Ed, Eq. split; [reflexivity |].
    intros Hf. inversion Hf; subst. constructor; [congruence | assumption].
  - destruct (IH i Hn) as [H1 H2]. rewrite H1. split; [reflexivity |].
    intros Hf. inversion Hf; subst. constructor; auto.
Qed.

Lemma live_qps_app (l : list resolver) (r : resolver) :
  done r = false -> live_qps (l ++ [r]) = live_qps l + qps r.
Proof.
  intros Hd. induction l as [| a l IH]; simpl; [rewrite Hd; lia |].
  rewrite IH. destruct (done a); lia.
Qed.

Lemma live_qps_all_live (l : list resolver) :
  Forall (fun x => done x = false) l -> live_qps l = sum_qps l.
Proof.
  induction 1 as [| a l Ha _ IH]; simpl; [reflexivity |]. rewrite Ha, IH. reflexivity.
Qed.

Lemma live_qps_stopped (l : list resolver) :
  live_qps (map (fun r => fst (resolver_stop r)) l) = 0.
Proof.
  induction l as [| a l IH]; simpl; [reflexivity |].
  destruct (resolver_stop_spec a) as [_ [_ [Hd _]]]. rewrite Hd. exact IH.
Qed.

Lemma initializeResolver_fresh (env : net_env) (p : Resolvers) (a : string) (q t : Z)
    (res : resolver) :
  initializeResolver env p a q t = Some res ->
  res = mkResolver false [] (newXchgMgr (timeout p))
          (if splitHostPort_ok env a then a else JoinHostPort a "53") q (Z.quot Second q) t [] [].
Proof.
  unfold initializeResolver. destruct (dial_ok env _); [| discriminate].
  intros H. injection H as <-. reflexivity.
Qed.

Lemma add_each_QInv (env : net_env) (p : Resolvers) (q : Z) (addrs : list string) (t : Z) :
  let p' := add_each env p q addrs t in
  maxSet p' = maxSet p /\ rdone p' = rdone p /\
  (maxSet p = true -> rqps p' = rqps p) /\ (QInv p -> QInv p').
Proof.
  revert p. induction addrs as [| a addrs IH]; intros p; simpl; [auto |].
  destruct (existsb (String.eqb a) (rmap p)); [apply IH |].
  destruct (initializeResolver env p a q t) as [res |] eqn:Hi; [| apply IH].
  apply initializeResolver_fresh in Hi.
  match goal with |- context [add_each env ?p1 q addrs t] =>
    destruct (IH p1) as (H1 & H2 & H3 & H4) end.
  simpl in *. rewrite H1, H2. split; [reflexivity |]. split; [reflexivity |].
  split; [intros Hm; rewrite H3 by exact Hm; rewrite Hm; reflexivity |].
  intros [Q1 Q2]. apply H4. split; simpl.
  - intros Hm. rewrite Hm. rewrite (Q1 Hm), int_wrap_add_l, live_qps_app by (rewrite Hi; reflexivity).
    rewrite Hi. reflexivity.
  - intros Hd. apply Forall_app. split; [exact (Q2 Hd) |]. constructor; [rewrite Hi; reflexivity |].
    constructor.
Qed.

Lemma step_QInv (w w' : World) :
  step w w' ->
  maxSet (P w') = maxSet (P w) /\ (maxSet (P w) = true -> rqps (P w') = rqps (P w)) /\
  (QInv (P w) -> QInv (P w')).
Proof.
  intros HS.
  destruct HS as [c msg ch p' ds HQ | Ha' Hd' | req rest Ha' Hq Hp | req rest i res res' ds Ha' Hq Hc Hn HR
                 | i res write_ok res' ds Hd' Hn Hdr Hnx Hne HW | i res read res' ds spawn Hn HR
                 | k i req t0 res out res' ds Hk Ht0 Hn HT | i res res' ds Hn HT
                 | p' ds HS | env q addrs p' err HA | c | d Hd0]; simpl.
  - destruct (Query_cases _ _ _ _ _ _ _ _ HQ) as [[-> _] | (req & -> & _ & _)]; [auto |].
    simpl. auto.
  - auto.
  - auto.
  - apply resolver_query_dq in HR.
    destruct (live_qps_set_nth _ _ _ _ Hn HR) as [H1 H2].
    split; [reflexivity |]. split; [reflexivity |].
    intros [Q1 Q2]. split; simpl; [rewrite H1; exact Q1 | intros Hd; exact (H2 (Q2 Hd))].
  - apply writeNextMsg_dq in HW.
    destruct (live_qps_set_nth _ _ _ _ Hn HW) as [H1 H2].
    split; [reflexivity |]. split; [reflexivity |].
    intros [Q1 Q2]. split; simpl; [rewrite H1; exact Q1 | intros Hd; exact (H2 (Q2 Hd))].
  - apply responses_step_dq in HR.
    destruct (live_qps_set_nth _ _ _ _ Hn HR) as [H1 H2].
    split; [reflexivity |]. split; [reflexivity |].
    intros [Q1 Q2]. split; simpl; [rewrite H1; exact Q1 | intros Hd; exact (H2 (Q2 Hd))].
  - apply tcpExchange_dq in HT.
    destruct (live_qps_set_nth _ _ _ _ Hn HT) as [H1 H2].
    split; [reflexivity |]. split; [reflexivity |].
    intros [Q1 Q2]. split; simpl; [rewrite H1; exact Q1 | intros Hd; exact (H2 (Q2 Hd))].
  - apply timeouts_step_dq in HT.
    destruct (live_qps_set_nth _ _ _ _ Hn HT) as [H1 H2].
    split; [reflexivity |]. split; [reflexivity |].
    intros [Q1 Q2]. split; simpl; [rewrite H1; exact Q1 | intros Hd; exact (H2 (Q2 Hd))].
  - unfold Stop in HS. destruct (rdone (P w)) eqn:Hd; [injection HS as <- _; auto |].
    rewrite stop_all_spec in HS. injection HS as <- _. simpl.
    split; [reflexivity |]. split; [intros Hm; rewrite Hm; reflexivity |].
    intros [Q1 Q2]. split; [| discriminate]. simpl. intros Hm. rewrite Hm, live_qps_stopped.
    rewrite (Q1 Hm), live_qps_all_live by exact (Q2 Hd). unfold sub_rates.
    destruct (pool (P w)) as [| r l]; [reflexivity |].
    rewrite int_wrap_sub_l, Z.sub_diag. reflexivity.
  - unfold AddResolvers in HA. destruct (Z.eqb q 0); injection HA as <- _; [auto |].
    destruct (add_each_QInv env (P w) q addrs (now w)) as (H1 & _ & H3 & H4). auto.
  - auto.
  - auto.
Qed.

Lemma steps_QInv (w w' : World) :
  steps w w' ->
  maxSet (P w') = maxSet (P w) /\ (maxSet (P w) = true -> rqps (P w') = rqps (P w)) /\
  (QInv (P w) -> QInv (P w')).
Proof.
  induction 1 as [w | w1 w2 w3 H12 _ (IH1 & IH2 & IH3)]; [auto |].
  destruct (step_QInv w1 w2 H12) as (S1 & S2 & S3).
  split; [congruence |]. split; [| auto].
  intros Hm. rewrite IH2 by congruence. auto.
Qed.

(** ** Adding endpoints *)

Lemma string_length_append (s1 s2 : string) :
  String.length (String.append s1 s2) = (String.length s1 + String.length s2)%nat.
Proof. induction s1 as [| c s1 IH]; simpl; [reflexivity | rewrite IH; reflexivity]. Qed.

Lemma JoinHostPort_longer (h port : string) :
  (String.length h < String.length (JoinHostPort h port))%nat.
Proof.
  unfold JoinHostPort. destruct (existsb _ _); rewrite ?string_length_append; simpl;
    rewrite ?string_length_append; simpl; lia.
Qed.

Lemma existsb_eqb_in (a : string) (l : list string) :
  existsb (String.eqb a) l = true <-> In a l.
Proof.
  rewrite existsb_exists. split.
  - intros (x & Hx & E). apply String.eqb_eq in E. subst. exact Hx.
  - intros H. exists a. split; [exact H | apply String.eqb_refl].
Qed.

(** The endpoint [initializeResolver] makes for [a] when the dial succeeds. *)
Definition new_endpoint (env : net_env) (p : Resolvers) (q t : Z) (a : string) : resolver :=
  mkResolver false [] (newXchgMgr (timeout p))
    (if splitHostPort_ok env a then a else JoinHostPort a "53") q (Z.quot Second q) t [] [].

(** The address [initializeResolver] dials for [a]. *)
Definition dial_addr (env : net_env) (a : string) : string :=
  if splitHostPort_ok env a then a else JoinHostPort a "53".

(** The aggregate rate once [q] is added [k] times to [r] in Go's [int]. *)
Definition add_rates (r q : Z) (k : nat) : Z :=
  match k with O => r | S _ => int_wrap (r + q * Z.of_nat k) end.

(** [l1] is [l2] with some elements left out, the others in their order. *)
Inductive sublist {A : Type} : list A -> list A -> Prop :=
| sublist_nil : sublist [] []
| sublist_skip a l1 l2 : sublist l1 l2 -> sublist l1 (a :: l2)
| sublist_keep a l1 l2 : sublist l1 l2 -> sublist (a :: l1) (a :: l2).

(** The addresses of [l] at their first occurrence, leaving out those in [seen]. *)
Fixpoint first_occ (seen l : list string) : list string :=
  match l with
  | [] => []
  | a :: l' => if existsb (String.eqb a) seen then first_occ seen l' else a :: first_occ (a :: seen) l'
  end.

(** [a] is not recorded in [recorded] and its dial succeeds. *)
Definition new_addr (env : net_env) (recorded : list string) (a : string) : bool :=
  negb (existsb (String.eqb a) recorded) && dial_ok env (dial_addr env a).

Lemma first_occ_fresh (seen l : list string) (x : string) :
  In x (first_occ seen l) -> ~ In x seen.
Proof.
  revert seen. induction l as [| a l IH]; intros seen; simpl; [intros [] |].
  destruct (existsb (String.eqb a) seen) eqn:E; [apply IH |].
  intros [<- | Hx] Hin.
  - apply existsb_eqb_in in Hin. congruence.
  - apply (IH (a :: seen) Hx). right. exact Hin.
Qed.

Lemma add_each_rmap (env : net_env) (p : Resolvers) (q : Z) (addrs : list string) (t : Z)
    (u : list string) :
  (forall x, In x u -> In x (rmap p) \/ dial_ok env (dial_addr env x) = false) ->
  rmap (add_each env p q addrs t) = rmap p ++ filter (new_addr env (rmap p)) (first_occ u addrs).
Proof.
  revert p u. induction addrs as [| a l IH]; intros p u Hu; simpl; [rewrite app_nil_r; reflexivity |].
  assert (Hu' : forall x, In x (a :: u) ->
            (In x (rmap p) \/ dial_ok env (dial_addr env x) = false) \/ x = a).
  { intros x [<- | Hx]; [right; reflexivity | left; exact (Hu x Hx)]. }
  destruct (existsb (String.eqb a) (rmap p)) eqn:Er.
  - destruct (existsb (String.eqb a) u); [exact (IH p u Hu) |].
    simpl. unfold new_addr at 1. rewrite Er. simpl. apply IH.
    intros x Hx. destruct (Hu' x Hx) as [H | ->]; [exact H |].
    left. apply existsb_eqb_in. exact Er.
  - unfold initializeResolver. fold (dial_addr env a).
    destruct (dial_ok env (dial_addr env a)) eqn:Ed.
    + destruct (existsb (String.eqb a) u) eqn:Eu.
      { apply existsb_eqb_in in Eu. destruct (Hu a Eu) as [H | H].
        - apply existsb_eqb_in in H. congruence.
        - congruence. }
      simpl. unfold new_addr at 1. rewrite Er, Ed. simpl.
      rewrite (IH _ (a :: u)); cbn [rmap].
      * rewrite <- app_assoc. simpl. f_equal. f_equal. apply filter_ext_in.
        intros x Hx. apply first_occ_fresh in Hx. unfold new_addr.
        rewrite existsb_app. simpl. rewrite orb_false_r.
        destruct (String.eqb x a) eqn:Ex; [| rewrite orb_false_r; reflexivity].
        apply String.eqb_eq in Ex. subst. exfalso. apply Hx. left. reflexivity.
      * intros x Hx. destruct (Hu' x Hx) as [[H | H] | ->].
        -- left. apply in_or_app. left. exact H.
        -- right. exact H.
        -- left. apply in_or_app. right. left. reflexivity.
    + destruct (existsb (String.eqb a) u); [exact (IH p u Hu) |].
      simpl. unfold new_addr at 1. rewrite Er, Ed. simpl. apply IH.
      intros x Hx. destruct (Hu' x Hx) as [H | ->]; [exact H | right; exact Ed].
Qed.

Lemma add_each_added (env : net_env) (p : Resolvers) (q : Z) (addrs : list string) (t : Z)
    (added : list string) :
  rmap (add_each env p q addrs t) = rmap p ++ added ->
  added = filter (new_addr env (rmap p)) (first_occ [] addrs).
Proof.
  intros H. rewrite (add_each_rmap env p q addrs t []) in H; [| intros x []].
  apply app_inv_head in H. symmetry. exact H.
Qed.

Lemma add_rates_succ (r q : Z) (k : nat) :
  add_rates (int_wrap (r + q)) q k = add_rates r q (S k).
Proof.
  unfold add_rates. destruct k as [| k].
  - f_equal. lia.
  - rewrite int_wrap_add_l. f_equal. lia.
Qed.

Lemma add_each_shape (env : net_env) (p : Resolvers) (q : Z) (addrs : list string) (t : Z) :
  NoDup (rmap p) ->
  let p1 := add_each env p q addrs t in
  exists added,
    rmap p1 = rmap p ++ added /\ pool p1 = pool p ++ map (new_endpoint env p q t) added /\
    NoDup (rmap p1) /\ (forall a, In a added -> In a addrs) /\
    rdone p1 = rdone p /\ pool_closed p1 = pool_closed p /\ queue p1 = queue p /\
    maxSet p1 = maxSet p /\ timeout p1 = timeout p /\
    rqps p1 = (if maxSet p then rqps p else add_rates (rqps p) q (length added)) /\
    sublist added addrs /\
    (forall a, In a added <->
       In a addrs /\ ~ In a (rmap p) /\ dial_ok env (dial_addr env a) = true).
Proof.
  revert p. induction addrs as [| a addrs IH]; intros p Hnd; simpl.
  - exists []. rewrite !app_nil_r.
    split; [reflexivity |]. split; [reflexivity |]. split; [exact Hnd |].
    split; [intros x [] |]. do 5 (split; [reflexivity |]).
    split; [destruct (maxSet p); reflexivity |]. split; [constructor |].
    intros x. split; [intros [] | intros [[] _]].
  - destruct (existsb (String.eqb a) (rmap p)) eqn:Hex.
    + destruct (IH p Hnd) as (ad & H1 & H2 & H3 & H4 & H5 & H6 & H7 & H8 & H9 & H10 & H11 & H12).
      exists ad.
      split; [exact H1 |]. split; [exact H2 |]. split; [exact H3 |].
      split; [intros x Hx; right; auto |]. do 6 (split; [assumption |]).
      split; [constructor; exact H11 |].
      intros x. rewrite H12. split.
      * intros (Hx & Hn & Hd). split; [right; exact Hx | auto].
      * intros ([<- | Hx] & Hn & Hd); [| auto].
        apply existsb_eqb_in in Hex. contradiction.
    + destruct (initializeResolver env p a q t) as [res |] eqn:Hi.
      * assert (Hda : dial_ok env (dial_addr env a) = true)
          by (unfold initializeResolver in Hi; unfold dial_addr;
              destruct (dial_ok env _); [reflexivity | discriminate]).
        apply initializeResolver_fresh in Hi. subst res.
        match goal with |- context [add_each env ?p1 q addrs t] =>
          assert (Hnd1 : NoDup (rmap p1)) end.
        { simpl. apply NoDup_snoc; [exact Hnd |]. rewrite <- existsb_eqb_in, Hex. discriminate. }
        destruct (IH _ Hnd1) as (ad & H1 & H2 & H3 & H4 & H5 & H6 & H7 & H8 & H9 & H10 & H11 & H12).
        simpl in *. exists (a :: ad).
        rewrite H1, H2, H5, H6, H7, H8, H9, H10. rewrite <- !app_assoc.
        rewrite H1, <- app_assoc in H3.
        split; [reflexivity |]. split; [reflexivity |]. split; [exact H3 |].
        split; [intros x [<- | Hx]; [left; reflexivity | right; auto] |].
        do 5 (split; [reflexivity |]).
        split; [destruct (maxSet p); [reflexivity | apply add_rates_succ] |].
        split; [constructor; exact H11 |].
        assert (Hna : ~ In a (rmap p)) by (rewrite <- existsb_eqb_in, Hex; discriminate).
        intros x. split.
        -- intros [<- | Hx]; [split; [left; reflexivity | split; assumption] |].
           apply H12 in Hx as (Hx & Hn & Hd). split; [right; exact Hx |].
           split; [| exact Hd]. intros Hin. apply Hn. apply in_or_app. left. exact Hin.
        -- intros (Hx & Hn & Hd). destruct (String.string_dec a x) as [<- | Ne]; [left; reflexivity |].
           right. apply H12. split; [destruct Hx as [E | Hx]; [contradiction | exact Hx] |].
           split; [| exact Hd]. intros Hin. apply in_app_or in Hin as [Hin | [E | []]];
             [contradiction | contradiction].
      * assert (Hda : dial_ok env (dial_addr env a) = false)
          by (unfold initializeResolver in Hi; unfold dial_addr;
              destruct (dial_ok env _); [discriminate | reflexivity]).
        destruct (IH p Hnd) as (ad & H1 & H2 & H3 & H4 & H5 & H6 & H7 & H8 & H9 & H10 & H11 & H12).
        exists ad.
        split; [exact H1 |]. split; [exact H2 |]. split; [exact H3 |].
        split; [intros x Hx; right; auto |]. do 6 (split; [assumption |]).
        split; [constructor; exact H11 |].
        intros x. rewrite H12. split.
        -- intros (Hx & Hn & Hd). split; [right; exact Hx | auto].
        -- intros ([<- | Hx] & Hn & Hd); [| auto]. rewrite Hda in Hd. discriminate.
Qed.

Lemma add_each_rmap_incl (env : net_env) (p : Resolvers) (q : Z) (addrs : list string) (t : Z)
    (x : string) :
  In x (rmap p) -> In x (rmap (add_each env p q addrs t)).
Proof.
  revert p. induction addrs as [| a addrs IH]; intros p Hx; simpl; [exact Hx |].
  destruct (existsb (String.eqb a) (rmap p)); [auto |].
  destruct (initializeResolver env p a q t); apply IH; simpl; [apply in_or_app; left |]; exact Hx.
Qed.

Lemma add_each_covers (env : net_env) (p : Resolvers) (q : Z) (addrs : list string) (t : Z)
    (a : string) :
  In a addrs ->
  In a (rmap (add_each env p q addrs t)) \/
  dial_ok env (if splitHostPort_ok env a then a else JoinHostPort a "53") = false.
Proof.
  revert p. induction addrs as [| b addrs IH]; intros p Ha; [destruct Ha |].
  destruct Ha as [-> | Ha]; simpl; [| destruct (existsb (String.eqb b) (rmap p));
                                      [| destruct (initializeResolver env p b q t)]; auto].
  destruct (existsb (String.eqb a) (rmap p)) eqn:Hex.
  - left. apply add_each_rmap_incl. apply existsb_eqb_in. exact Hex.
  - unfold initializeResolver at 1.
    destruct (dial_ok env _) eqn:Hd; [| right; reflexivity].
    left. apply add_each_rmap_incl. simpl. apply in_or_app. right. left. reflexivity.
Qed.

Lemma add_each_noop (env : net_env) (p : Resolvers) (q : Z) (addrs : list string) (t : Z) :
  (forall a, In a addrs -> In a (rmap p) \/
     dial_ok env (if splitHostPort_ok env a then a else JoinHostPort a "53") = false) ->
  add_each env p q addrs t = p.
Proof.
  induction addrs as [| a addrs IH]; intros H; simpl; [reflexivity |].
  assert (H' : forall x, In x addrs -> In x (rmap p) \/
     dial_ok env (if splitHostPort_ok env x then x else JoinHostPort x "53") = false)
    by (intros x Hx; apply H; right; exact Hx).
  destruct (existsb (String.eqb a) (rmap p)) eqn:Hex; [auto |].
  destruct (H a (or_introl eq_refl)) as [Hin | Hd].
  - apply existsb_eqb_in in Hin. rewrite Hin in Hex. discriminate.
  - unfold initializeResolver. rewrite Hd. auto.
Qed.

(** ** Further properties of the pool *)

Definition world_new : World := mkWorld (NewResolvers (500 * Millisecond)) [] 0 [] O true [].

Definition addrs_example : list string := ["8.8.8.8"; "1.1.1.1"; "8.8.8.8"]%string.

Definition world_added : World :=
  mkWorld (fst (AddResolvers net_ok (NewResolvers (500 * Millisecond)) 10 addrs_example 0))
    [] 0 [] O true [].

Lemma world_added_reached : steps world_new world_added.
Proof.
  eapply steps_cons; [eapply (st_add world_new net_ok 10 addrs_example _ None); reflexivity |].
  apply steps_refl.
Qed.

(** Extra X1 (QPS, AddResolvers, Stop): in every run from a pool made by
    [NewResolvers], on which no maximum is set, [QPS()] equals the sum of
    the rates of the endpoints that are not stopped, computed in Go's
    [int] (wrapping around modulo 2^64): [AddResolvers] adds the rate of
    each endpoint it adds, [Stop] takes back the rates of all of them,
    and no other step changes either side.  Each step of a run is one
    whole call: the runs cover calls to [Stop] and [AddResolvers] that do
    not overlap ([Stop] updates [r.qps] without the lock, so overlapping
    calls race on it). *)
Theorem QPS_sum_of_running_endpoints (dt : Z) (w0 w : World) :
  P w0 = NewResolvers dt -> steps w0 w -> QPS (P w) = int_wrap (live_qps (pool (P w))).
Proof.
  intros H0 Hs. destruct (steps_QInv _ _ Hs) as (H1 & _ & H3).
  assert (Q0 : QInv (P w0)) by (rewrite H0; split; [reflexivity | intros _; constructor]).
  destruct (H3 Q0) as [Q1 _]. unfold QPS. apply Q1. rewrite H1, H0. reflexivity.
Qed.

Lemma QPS_sum_of_running_endpoints_witness :
  P world_new = NewResolvers (500 * Millisecond) /\ steps world_new world_added /\
  QPS (P world_added) = int_wrap (live_qps (pool (P world_added))).
Proof.
  split; [reflexivity |]. split; [exact world_added_reached |].
  apply (QPS_sum_of_running_endpoints (500 * Millisecond) world_new world_added);
    [reflexivity | exact world_added_reached].
Defined.

Definition world_capped : World := mkWorld (SetMaxQPS pool_one 5) [] 0 [] O true [].

Definition world_capped_stopped : World :=
  mkWorld (fst (Stop (SetMaxQPS pool_one 5))) [] 0
    (emit world_capped (snd (Stop (SetMaxQPS pool_one 5)))) O true [].

Lemma world_capped_stopped_reached : steps world_capped world_capped_stopped.
Proof.
  eapply steps_cons; [eapply (st_stop world_capped _ _); reflexivity |]. apply steps_refl.
Qed.

(** Extra X2 (SetMaxQPS, QPS): once [SetMaxQPS] is called with a positive
    rate [m], [QPS()] stays [m] in every later run: [maxSet] stays true, so
    neither [AddResolvers] nor [Stop] changes the aggregate. *)
Theorem SetMaxQPS_positive_pins_QPS (p : Resolvers) (m : Z) (w0 w : World) :
  0 < m -> P w0 = SetMaxQPS p m -> steps w0 w -> QPS (P w) = m.
Proof.
  intros Hm H0 Hs. destruct (steps_QInv _ _ Hs) as (_ & H2 & _).
  unfold QPS. rewrite H2, H0; [reflexivity |]. rewrite H0. simpl. apply Z.ltb_lt. exact Hm.
Qed.

Lemma SetMaxQPS_positive_pins_QPS_witness :
  0 < 5 /\ P world_capped = SetMaxQPS pool_one 5 /\ steps world_capped world_capped_stopped /\
  QPS (P world_capped_stopped) = 5.
Proof.
  split; [lia |]. split; [reflexivity |]. split; [exact world_capped_stopped_reached |].
  apply (SetMaxQPS_positive_pins_QPS pool_one 5 world_capped world_capped_stopped);
    [lia | reflexivity | exact world_capped_stopped_reached].
Defined.

(** Extra X3 (SetMaxQPS, Stop): [SetMaxQPS] with a rate [m <= 0] sets
    [QPS()] to [m] and clears [maxSet]; a following first [Stop] still
    subtracts the rate of every endpoint, so [QPS()] ends at [m] minus the
    sum of the endpoints' rates, in Go's [int] ([sub_rates]). *)
Theorem SetMaxQPS_nonpositive_then_Stop (p : Resolvers) (m : Z) :
  m <= 0 -> rdone p = false ->
  QPS (SetMaxQPS p m) = m /\ maxSet (SetMaxQPS p m) = false /\
  QPS (fst (Stop (SetMaxQPS p m))) = sub_rates m (pool p).
Proof.
  intros Hm Hd. assert (E : Z.ltb 0 m = false) by (apply Z.ltb_ge; exact Hm).
  unfold QPS, SetMaxQPS, Stop. simpl. rewrite E, Hd, stop_all_spec. simpl.
  split; [reflexivity |]. split; reflexivity.
Qed.

Lemma SetMaxQPS_nonpositive_then_Stop_witness :
  QPS (SetMaxQPS pool_one 0) = 0 /\ maxSet (SetMaxQPS pool_one 0) = false /\
  QPS (fst (Stop (SetMaxQPS pool_one 0))) = sub_rates 0 (pool pool_one) /\
  QPS (fst (Stop (SetMaxQPS pool_one 0))) = -10.
Proof.
  destruct (SetMaxQPS_nonpositive_then_Stop pool_one 0) as (H1 & H2 & H3);
    [lia | reflexivity |].
  split; [exact H1 |]. split; [exact H2 |]. split; [exact H3 |]. rewrite H3. reflexivity.
Defined.

(** Extra X4 (the loops of a pool): in every run from a pool made by
    [NewResolvers], however callers, the admission loop, sends, receives,
    TCP retries, sweeps, [Stop], [AddResolvers], cancellations and time
    interleave, no query receives more than one result. *)
Theorem NewResolvers_at_most_once (dt : Z) (w0 w : World) (n : nat) :
  P w0 = NewResolvers dt -> log w0 = [] -> tcp_tasks w0 = [] -> steps w0 w ->
  (deliveries_of n w <= 1)%nat.
Proof.
  intros H0 Hl Ht Hs. apply Owned_at_most_once, (steps_Owned w0); [| exact Hs].
  unfold Owned, held_and_sent, tcp_serials, log_serials. rewrite H0, Hl, Ht. simpl.
  split; constructor.
Qed.

(** The request sent in [run_truncated_sent] is answered by [msg_example]. *)
Definition run_answered : World :=
  with_pool_at run_truncated_sent 0 (fst (fst (responses_step res_sent (Some msg_example))))
    (snd (fst (responses_step res_sent (Some msg_example)))) [].

Lemma run_answered_reached : steps world_new run_answered.
Proof.
  apply (steps_trans _ _ _ run_truncated_reached).
  eapply steps_cons; [| apply steps_refl].
  apply (st_recv run_truncated_sent 0 res_sent (Some msg_example)
           (fst (fst (responses_step res_sent (Some msg_example))))
           (snd (fst (responses_step res_sent (Some msg_example)))) None);
    [reflexivity | vm_compute; reflexivity].
Qed.

Lemma NewResolvers_at_most_once_witness :
  steps world_new run_answered /\ deliveries_of 0 run_answered = 1%nat /\
  (deliveries_of 0 run_answered <= 1)%nat.
Proof.
  split; [exact run_answered_reached |]. split; [vm_compute; reflexivity |].
  apply (NewResolvers_at_most_once (500 * Millisecond) world_new run_answered 0);
    [reflexivity | reflexivity | reflexivity | exact run_answered_reached].
Defined.

Definition pool_added : Resolvers := fst (AddResolvers net_ok pool_empty 10 addrs_example 0).

(** Extra X5 (AddResolvers, initializeResolver): for a rate [q <> 0] and a
    pool whose [rmap] holds no address twice, [AddResolvers] returns a nil
    error and adds exactly the addresses of [addrs] that are not yet in
    [rmap] and whose dial succeeds, each at its first occurrence in
    [addrs] and in that order ([first_occ], [new_addr]):
    they are appended to [rmap], and to the pool one endpoint per added
    address, in the same order, as [initializeResolver] builds it
    ([new_endpoint]); it raises the aggregate by [q] per endpoint in Go's
    [int] unless a maximum is set, and changes nothing else of the pool. *)
Theorem AddResolvers_appends_endpoints (env : net_env) (p p1 : Resolvers) (q : Z)
    (addrs : list string) (t : Z) (err : option string) :
  q <> 0 -> NoDup (rmap p) -> AddResolvers env p q addrs t = (p1, err) ->
  err = None /\
  exists added,
    added = filter (new_addr env (rmap p)) (first_occ [] addrs) /\
    rmap p1 = rmap p ++ added /\ pool p1 = pool p ++ map (new_endpoint env p q t) added /\
    NoDup (rmap p1) /\ (forall a, In a added -> In a addrs) /\
    rdone p1 = rdone p /\ pool_closed p1 = pool_closed p /\ queue p1 = queue p /\
    maxSet p1 = maxSet p /\ timeout p1 = timeout p /\
    rqps p1 = (if maxSet p then rqps p else add_rates (rqps p) q (length added)) /\
    sublist added addrs /\
    (forall a, In a added <->
       In a addrs /\ ~ In a (rmap p) /\ dial_ok env (dial_addr env a) = true).
Proof.
  intros Hq Hnd HA. unfold AddResolvers in HA. apply Z.eqb_neq in Hq. rewrite Hq in HA.
  injection HA as <- <-. split; [reflexivity |].
  destruct (add_each_shape env p q addrs t Hnd) as (ad & H). exists ad.
  split; [exact (add_each_added env p q addrs t ad (proj1 H)) | exact H].
Qed.

Lemma AddResolvers_appends_endpoints_witness :
  rmap pool_added = ["8.8.8.8"; "1.1.1.1"]%string /\
  exists added,
    added = filter (new_addr net_ok (rmap pool_empty)) (first_occ [] addrs_example) /\
    rmap pool_added = rmap pool_empty ++ added /\
    pool pool_added = pool pool_empty ++ map (new_endpoint net_ok pool_empty 10 0) added /\
    NoDup (rmap pool_added) /\ (forall a, In a added -> In a addrs_example) /\
    rdone pool_added = rdone pool_empty /\ pool_closed pool_added = pool_closed pool_empty /\
    queue pool_added = queue pool_empty /\ maxSet pool_added = maxSet pool_empty /\
    timeout pool_added = timeout pool_empty /\
    rqps pool_added = (if maxSet pool_empty then rqps pool_empty
                       else add_rates (rqps pool_empty) 10 (length added)) /\
    sublist added addrs_example /\
    (forall a, In a added <->
       In a addrs_example /\ ~ In a (rmap pool_empty) /\ dial_ok net_ok (dial_addr net_ok a) = true).
Proof.
  split; [reflexivity |].
  destruct (AddResolvers_appends_endpoints net_ok pool_empty pool_added 10 addrs_example 0
              (snd (AddResolvers net_ok pool_empty 10 addrs_example 0)))
    as [_ H]; [lia | constructor | reflexivity | exact H].
Defined.

(** Extra X6 (AddResolvers): for a rate [q <> 0], calling [AddResolvers]
    again with the same addresses, on the pool it returned and with the
    network answering as before, changes nothing and returns a nil error:
    every address is then recorded in [rmap] or fails to dial again. *)
Theorem AddResolvers_idempotent (env : net_env) (p p1 : Resolvers) (q : Z)
    (addrs : list string) (t t' : Z) (err : option string) :
  q <> 0 -> AddResolvers env p q addrs t = (p1, err) -> AddResolvers env p1 q addrs t' = (p1, None).
Proof.
  intros Hq HA. unfold AddResolvers in *. apply Z.eqb_neq in Hq. rewrite Hq in *.
  injection HA as <- _. f_equal. apply add_each_noop. intros a Ha. apply add_each_covers. exact Ha.
Qed.

Lemma AddResolvers_idempotent_witness :
  AddResolvers net_ok pool_added 10 addrs_example 5 = (pool_added, None).
Proof.
  apply (AddResolvers_idempotent net_ok pool_empty pool_added 10 addrs_example 0 5
           (snd (AddResolvers net_ok pool_empty 10 addrs_example 0))); [lia | reflexivity].
Defined.

(** [net.SplitHostPort] accepting exactly the addresses with a colon. *)
Definition net_port : net_env :=
  mkNetEnv (fun s => existsb (fun c => Ascii.eqb c ":"%char) (list_ascii_of_string s)) (fun _ => true).

(** Extra X7 (AddResolvers, initializeResolver): [rmap] records the address
    as given, while the endpoint dials the address with ":53" added; so
    adding a host without a port and the same host with ":53" yields two
    endpoints on the same address. *)
Theorem AddResolvers_same_endpoint_twice (env : net_env) (p p1 : Resolvers) (q t : Z)
    (h : string) (err : option string) :
  q <> 0 -> splitHostPort_ok env h = false ->
  splitHostPort_ok env (JoinHostPort h "53") = true -> dial_ok env (JoinHostPort h "53") = true ->
  ~ In h (rmap p) -> ~ In (JoinHostPort h "53") (rmap p) ->
  AddResolvers env p q [h; JoinHostPort h "53"] t = (p1, err) ->
  err = None /\ rmap p1 = rmap p ++ [h; JoinHostPort h "53"] /\
  exists r1 r2, pool p1 = pool p ++ [r1; r2] /\
    address r1 = JoinHostPort h "53" /\ address r2 = JoinHostPort h "53".
Proof.
  intros Hq Hs1 Hs2 Hd Hn1 Hn2 HA. unfold AddResolvers in HA. apply Z.eqb_neq in Hq.
  rewrite Hq in HA. injection HA as <- <-. split; [reflexivity |].
  assert (E1 : existsb (String.eqb h) (rmap p) = false).
  { destruct (existsb (String.eqb h) (rmap p)) eqn:E; [| reflexivity].
    apply existsb_eqb_in in E. contradiction. }
  assert (E2 : existsb (String.eqb (JoinHostPort h "53")) (rmap p ++ [h]) = false).
  { destruct (existsb (String.eqb (JoinHostPort h "53")) (rmap p ++ [h])) eqn:E; [| reflexivity].
    apply existsb_eqb_in, in_app_or in E as [E | [E | []]]; [contradiction |].
    apply (f_equal String.length) in E. pose proof (JoinHostPort_longer h "53"). lia. }
  assert (I1 : forall p', initializeResolver env p' h q t = Some (new_endpoint env p' q t h))
    by (intros p'; unfold initializeResolver, new_endpoint; rewrite Hs1; cbv iota;
        rewrite Hd; reflexivity).
  assert (I2 : forall p', initializeResolver env p' (JoinHostPort h "53") q t =
                          Some (new_endpoint env p' q t (JoinHostPort h "53")))
    by (intros p'; unfold initializeResolver, new_endpoint; rewrite Hs2; cbv iota;
        rewrite Hd; reflexivity).
  cbn [add_each]. rewrite E1, I1. cbn [add_each rmap]. rewrite E2, I2.
  cbn [add_each rmap pool]. rewrite <- !app_assoc.
  split; [reflexivity |]. eexists; eexists. split; [reflexivity |].
  unfold new_endpoint. rewrite Hs1, Hs2. split; reflexivity.
Qed.

Lemma AddResolvers_same_endpoint_twice_witness :
  rmap (fst (AddResolvers net_port pool_empty 10 ["8.8.4.4"; "8.8.4.4:53"]%string 0)) =
    rmap pool_empty ++ ["8.8.4.4"%string; JoinHostPort "8.8.4.4"%string "53"%string] /\
  exists r1 r2, pool (fst (AddResolvers net_port pool_empty 10 ["8.8.4.4"; "8.8.4.4:53"]%string 0)) =
      pool pool_empty ++ [r1; r2] /\
    address r1 = JoinHostPort "8.8.4.4"%string "53"%string /\ address r2 = JoinHostPort "8.8.4.4"%string "53"%string.
Proof.
  destruct (AddResolvers_same_endpoint_twice net_port pool_empty
              (fst (AddResolvers net_port pool_empty 10 ["8.8.4.4"; "8.8.4.4:53"]%string 0)) 10 0
              "8.8.4.4"%string (snd (AddResolvers net_port pool_empty 10 ["8.8.4.4"; "8.8.4.4:53"]%string 0)))
    as (_ & H1 & H2); [lia | reflexivity | reflexivity | reflexivity | simpl; tauto | simpl; tauto
                       | reflexivity |].
  split; [exact H1 | exact H2].
Defined.

(** Extra X8 (AddResolvers, Stop): [AddResolvers] does not look at [done]:
    on a pool already stopped it still dials and appends a running
    endpoint for each new address whose dial succeeds (the same addresses
    as on a running pool), and a later [Stop] returns at once, so these
    endpoints are never stopped. *)
Theorem AddResolvers_after_Stop (env : net_env) (p p1 : Resolvers) (q : Z)
    (addrs : list string) (t : Z) (err : option string) :
  rdone p = true -> q <> 0 -> NoDup (rmap p) -> AddResolvers env p q addrs t = (p1, err) ->
  err = None /\ rdone p1 = true /\ Stop p1 = (p1, []) /\
  exists added,
    added = filter (new_addr env (rmap p)) (first_occ [] addrs) /\
    pool p1 = pool p ++ map (new_endpoint env p q t) added /\
    (forall a, In a added <->
       In a addrs /\ ~ In a (rmap p) /\ dial_ok env (dial_addr env a) = true) /\
    Forall (fun res => done res = false) (map (new_endpoint env p q t) added).
Proof.
  intros Hd Hq Hnd HA. unfold AddResolvers in HA. apply Z.eqb_neq in Hq. rewrite Hq in HA.
  injection HA as <- <-.
  destruct (add_each_shape env p q addrs t Hnd)
    as (ad & H1 & H2 & _ & _ & H5 & _ & _ & _ & _ & _ & _ & H12).
  split; [reflexivity |]. split; [rewrite H5; exact Hd |].
  split; [unfold Stop; rewrite H5, Hd; reflexivity |].
  exists ad. split; [exact (add_each_added env p q addrs t ad H1) |].
  split; [exact H2 |]. split; [exact H12 |].
  apply Forall_forall. intros res Hres. apply in_map_iff in Hres as (a & <- & _). reflexivity.
Qed.

Definition pool_stopped_added : Resolvers :=
  fst (AddResolvers net_ok pool_stopped 10 ["1.1.1.1"%string] 0).

Lemma AddResolvers_after_Stop_witness :
  length (pool pool_stopped_added) = 2%nat /\
  rdone pool_stopped_added = true /\ Stop pool_stopped_added = (pool_stopped_added, []) /\
  exists added,
    added = filter (new_addr net_ok (rmap pool_stopped)) (first_occ [] ["1.1.1.1"%string]) /\
    pool pool_stopped_added = pool pool_stopped ++ map (new_endpoint net_ok pool_stopped 10 0) added /\
    (forall a, In a added <->
       In a ["1.1.1.1"%string] /\ ~ In a (rmap pool_stopped) /\
       dial_ok net_ok (dial_addr net_ok a) = true) /\
    Forall (fun res => done res = false) (map (new_endpoint net_ok pool_stopped 10 0) added).
Proof.
  destruct (AddResolvers_after_Stop net_ok pool_stopped pool_stopped_added 10 ["1.1.1.1"%string] 0
              (snd (AddResolvers net_ok pool_stopped 10 ["1.1.1.1"%string] 0)))
    as (_ & H); [reflexivity | lia | repeat constructor; simpl; tauto | reflexivity |].
  split; [vm_compute; reflexivity | exact H].
Defined.


Lemma writeNextMsg_queue (r r' : resolver) (cd : nat -> bool) (wok : bool) (t : Z)
    (ds : list delivery) :
  writeNextMsg r cd wok t = (r', ds) ->
  xchgQueue r' = xchgQueue r \/ exists req, xchgQueue r = req :: xchgQueue r'.
Proof.
  unfold writeNextMsg. destruct (done r); [intros H; injection H as <- _; left; reflexivity |].
  destruct (xchgQueue r) as [| req rest] eqn:Eq; [intros H; injection H as <- _; left; exact Eq |].
  destruct (cd (Ctx req)); [intros H; injection H as <- _; right; exists req; reflexivity |].
  destruct wok; [destruct (x_add _ _) |]; intros H; injection H as <- _; right; exists req;
    reflexivity.
Qed.

Lemma check_all_spec (cd sig wok : nat -> bool) (wnow : nat -> Z) (cur : Z) (i : nat)
    (l l' : list resolver) (sent : bool) (ds : list delivery) :
  check_all cd sig wok wnow cur i l = (sent, l', ds) ->
  length l' = length l /\
  (forall k res, nth_error l k = Some res ->
     nth_error l' k = Some (if done res || Z.ltb cur (next res) || negb (sig (i + k)%nat) then res
                            else fst (writeNextMsg res cd (wok (i + k)%nat) (wnow (i + k)%nat)))) /\
  (sent = true <-> exists k res, nth_error l k = Some res /\ done res = false /\
                                 next res <= cur /\ sig (i + k)%nat = true) /\
  Permutation (flat_map res_serials l) (flat_map res_serials l' ++ ds_serials ds) /\
  Forall2 (fun res res' => xchgQueue res' = xchgQueue res \/
                           exists req, xchgQueue res = req :: xchgQueue res') l l'.
Proof.
  revert i sent l' ds. induction l as [| res rest IH]; intros i sent l' ds H; simpl in H.
  - injection H as <- <- <-. split; [reflexivity |]. split; [intros [|] ? ?; discriminate |].
    split; [split; [discriminate | intros (k & r & Hk & _); destruct k; discriminate] |].
    split; [reflexivity | constructor].
  - destruct (check_all cd sig wok wnow cur (S i) rest) as [[s2 rest'] ds2] eqn:Hc.
    destruct (IH _ _ _ _ Hc) as (L & N & Sn & Pm & F).
    assert (Hsh : forall k, sig (S i + k)%nat = sig (i + S k)%nat /\ wok (S i + k)%nat = wok (i + S k)%nat
                            /\ wnow (S i + k)%nat = wnow (i + S k)%nat)
      by (intros k; replace (S i + k)%nat with (i + S k)%nat by lia; auto).
    assert (Hi0 : (i + 0)%nat = i) by lia.
    destruct (if done res then (false, res, [])
              else if Z.ltb cur (next res) then (false, res, [])
              else if sig i then
                let '(res', ds0) := writeNextMsg res cd (wok i) (wnow i) in (true, res', ds0)
              else (false, res, [])) as [[b res'] ds1] eqn:Hb.
    injection H as <- <- <-.
    assert (Hres : res' = (if done res || Z.ltb cur (next res) || negb (sig i) then res
                           else fst (writeNextMsg res cd (wok i) (wnow i))) /\
                   (b = true <-> done res = false /\ next res <= cur /\ sig i = true) /\
                   Permutation (res_serials res) (res_serials res' ++ ds_serials ds1) /\
                   (xchgQueue res' = xchgQueue res \/
                    exists req, xchgQueue res = req :: xchgQueue res')).
    { destruct (done res); [injection Hb as <- <- <-; simpl; rewrite app_nil_r;
                            split; [reflexivity | split; [split; [discriminate | intros (? & _); discriminate] | auto]] |].
      destruct (Z.ltb cur (next res)) eqn:Hlt.
      - injection Hb as <- <- <-. simpl. rewrite app_nil_r.
        split; [reflexivity |]. split; [| auto].
        split; [discriminate | intros (_ & Hle & _); apply Z.ltb_lt in Hlt; lia].
      - destruct (sig i).
        + destruct (writeNextMsg res cd (wok i) (wnow i)) as [r1 d1] eqn:Hw.
          injection Hb as <- <- <-. simpl.
          split; [reflexivity |]. split; [split; [intros _; split; [reflexivity |]; split; [apply Z.ltb_ge; exact Hlt | reflexivity] | reflexivity] |].
          split; [exact (writeNextMsg_perm _ _ _ _ _ _ Hw) | exact (writeNextMsg_queue _ _ _ _ _ _ Hw)].
        + injection Hb as <- <- <-. simpl. rewrite app_nil_r.
          split; [reflexivity |]. split; [| auto].
          split; [discriminate | intros (_ & _ & E); discriminate]. }
    destruct Hres as (R1 & R2 & R3 & R4).
    split; [simpl; rewrite L; reflexivity |].
    split.
    + intros [| k] r Hk; simpl in Hk |- *.
      * injection Hk as <-. rewrite Hi0, R1. reflexivity.
      * rewrite (N k r Hk). destruct (Hsh k) as (E1 & E2 & E3). rewrite E1, E2, E3. reflexivity.
    + split.
      * split.
        -- intros Hor. apply orb_true_iff in Hor as [Hb1 | Hs].
           ++ apply R2 in Hb1. exists O, res. rewrite Hi0. split; [reflexivity | exact Hb1].
           ++ apply Sn in Hs as (k & r & Hk & Hr). exists (S k), r. rewrite <- (proj1 (Hsh k)). auto.
        -- intros ([| k] & r & Hk & Hr); simpl in Hk.
           ++ injection Hk as <-. rewrite Hi0 in Hr. apply R2 in Hr. rewrite Hr. reflexivity.
           ++ apply orb_true_iff. right. apply Sn. exists k, r. rewrite (proj1 (Hsh k)). auto.
      * split; [| constructor; assumption].
        simpl. unfold ds_serials in *. rewrite map_app.
        rewrite <- app_assoc.
        eapply Permutation_trans; [apply Permutation_app; [exact R3 | exact Pm] |].
        rewrite <- !app_assoc. apply Permutation_app_head.
        rewrite !app_assoc. apply Permutation_app_tail. apply Permutation_app_comm.
Qed.

(** Extra X10 (checkAllQueues, writeNextMsg): one round of [checkAllQueues]
    at time [cur] changes only the endpoint list, keeps its length, and
    leaves untouched every endpoint that is stopped, whose [next] is after
    [cur], or whose queue signal is not ready; each other endpoint takes
    exactly one [writeNextMsg].  The round reports a send exactly when
    some running endpoint with [next <= cur] had its signal ready. *)
Theorem checkAllQueues_spec (p p' : Resolvers) (cd sig wok : nat -> bool) (wnow : nat -> Z)
    (cur : Z) (sent : bool) (ds : list delivery) :
  checkAllQueues p cd sig wok wnow cur = (sent, p', ds) ->
  p' = set_pool p (pool p') /\ length (pool p') = length (pool p) /\
  (forall i res, nth_error (pool p) i = Some res ->
     nth_error (pool p') i = Some (if done res || Z.ltb cur (next res) || negb (sig i) then res
                                   else fst (writeNextMsg res cd (wok i) (wnow i)))) /\
  (sent = true <-> exists i res, nth_error (pool p) i = Some res /\ done res = false /\
                                 next res <= cur /\ sig i = true).
Proof.
  unfold checkAllQueues.
  destruct (check_all cd sig wok wnow cur 0 (pool p)) as [[s l] d] eqn:Hc.
  intros H. injection H as <- <- <-.
  destruct (check_all_spec _ _ _ _ _ _ _ _ _ _ Hc) as (L & N & Sn & _).
  split; [reflexivity |]. split; [exact L |]. split; [exact N | exact Sn].
Qed.

(** Two endpoints holding [req_example]: the second may not send before
    one second. *)
Definition pool_two : Resolvers :=
  set_pool pool_one [resolver_with_req; set_next resolver_with_req Second].

Definition round_two : bool * Resolvers * list delivery :=
  checkAllQueues pool_two (fun _ => false) (fun _ => true) (fun _ => true) (fun _ => 0) 0.

Lemma checkAllQueues_spec_witness :
  fst (fst round_two) = true /\
  snd (fst round_two) = set_pool pool_two (pool (snd (fst round_two))) /\
  length (pool (snd (fst round_two))) = length (pool pool_two) /\
  (forall i res, nth_error (pool pool_two) i = Some res ->
     nth_error (pool (snd (fst round_two))) i =
       Some (if done res || Z.ltb 0 (next res) || negb true then res
             else fst (writeNextMsg res (fun _ => false) true 0))) /\
  (fst (fst round_two) = true <-> exists i res, nth_error (pool pool_two) i = Some res /\
      done res = false /\ next res <= 0 /\ true = true).
Proof.
  split; [reflexivity |].
  exact (checkAllQueues_spec pool_two (snd (fst round_two)) (fun _ => false) (fun _ => true)
           (fun _ => true) (fun _ => 0) 0 (fst (fst round_two)) (snd round_two) eq_refl).
Defined.

(** Extra X11 (checkAllQueues, writeNextMsg): a round of [checkAllQueues]
    loses and duplicates no request: the requests held by the endpoints
    before the round are those held after it plus those failed during it,
    and each endpoint's queue loses at most its first request. *)
Theorem checkAllQueues_keeps_requests (p p' : Resolvers) (cd sig wok : nat -> bool)
    (wnow : nat -> Z) (cur : Z) (sent : bool) (ds : list delivery) :
  checkAllQueues p cd sig wok wnow cur = (sent, p', ds) ->
  Permutation (flat_map res_serials (pool p)) (flat_map res_serials (pool p') ++ ds_serials ds) /\
  Forall2 (fun res res' => xchgQueue res' = xchgQueue res \/
                           exists req, xchgQueue res = req :: xchgQueue res') (pool p) (pool p').
Proof.
  unfold checkAllQueues.
  destruct (check_all cd sig wok wnow cur 0 (pool p)) as [[s l] d] eqn:Hc.
  intros H. injection H as <- <- <-.
  destruct (check_all_spec _ _ _ _ _ _ _ _ _ _ Hc) as (_ & _ & _ & Pm & F).
  split; [exact Pm | exact F].
Qed.

Lemma checkAllQueues_keeps_requests_witness :
  Permutation (flat_map res_serials (pool pool_two))
    (flat_map res_serials (pool (snd (fst round_two))) ++ ds_serials (snd round_two)) /\
  Forall2 (fun res res' => xchgQueue res' = xchgQueue res \/
                           exists req, xchgQueue res = req :: xchgQueue res')
    (pool pool_two) (pool (snd (fst round_two))).
Proof.
  exact (checkAllQueues_keeps_requests pool_two (snd (fst round_two)) (fun _ => false)
           (fun _ => true) (fun _ => true) (fun _ => 0) 0 (fst (fst round_two)) (snd round_two)
           eq_refl).
Defined.

(** [r] is stopped and has the queue, table entries, writes and send time of [r0]. *)
Definition idle_as (r0 r : resolver) : Prop :=
  done r = true /\ xchgQueue r = xchgQueue r0 /\ x_entries (xchgs r) = x_entries (xchgs r0) /\
  conn_writes r = conn_writes r0 /\ next r = next r0.





Ltac idle_done :=
  match goal with
  | Hr : idle_as _ ?r |- _ => destruct Hr as (Hd & _)
  end.






Lemma fail_expired_stats (r : resolver) (reqs : list request) :
  fail_expired r reqs =
  (mkResolver (done r) (xchgQueue r) (xchgs r) (address r) (qps r) (inc r) (next r)
     (conn_writes r) (stats r ++ map (fun req => set_Rcode (Msg req) RcodeNoResponse) reqs),
   map errNoResponse reqs).
Proof.
  revert r. induction reqs as [| req rest IH]; intros r; simpl.
  - rewrite app_nil_r. destruct r; reflexivity.
  - rewrite IH. simpl. rewrite <- app_assoc. reflexivity.
Qed.

(** Extra X13 (resolver.timeouts): a sweep tick of a running endpoint at
    [now] changes only its table and its statistics: the expired entries
    leave the table, each of their requests is failed with no-response
    and its message, on which [errNoResponse] has set the no-response code
    in place, is counted in the statistics, in table order; the queue, the
    connection writes and the send schedule are untouched. *)
Theorem timeouts_step_counts_expired (r r' : resolver) (now : Z) (ds : list delivery) :
  done r = false -> timeouts_step r now = (r', ds) ->
  let expired := map xe_req (filter (x_expired (xchgs r) now) (x_entries (xchgs r))) in
  ds = map errNoResponse expired /\
  r' = mkResolver false (xchgQueue r) (snd (x_removeExpired (xchgs r) now)) (address r) (qps r)
         (inc r) (next r) (conn_writes r)
         (stats r ++ map (fun req => set_Rcode (Msg req) RcodeNoResponse) expired).
Proof.
  intros Hd HT. unfold timeouts_step in HT. rewrite Hd in HT. unfold x_removeExpired in *.
  rewrite fail_expired_stats in HT. injection HT as <- <-. simpl. rewrite Hd.
  split; reflexivity.
Qed.

Lemma timeouts_step_counts_expired_witness :
  let r := resolver_waiting in
  let expired := map xe_req (filter (x_expired (xchgs r) Second) (x_entries (xchgs r))) in
  expired = [req_example] /\
  snd (timeouts_step r Second) = map errNoResponse expired /\
  fst (timeouts_step r Second) =
    mkResolver false (xchgQueue r) (snd (x_removeExpired (xchgs r) Second)) (address r) (qps r)
      (inc r) (next r) (conn_writes r)
      (stats r ++ map (fun req => set_Rcode (Msg req) RcodeNoResponse) expired).
Proof.
  split; [reflexivity |].
  exact (timeouts_step_counts_expired resolver_waiting (fst (timeouts_step resolver_waiting Second))
           Second (snd (timeouts_step resolver_waiting Second)) eq_refl eq_refl).
Defined.
